(** * Fingering placement and layout (libmscore/fingering.cpp)

    A shallow embedding of [Fingering::layoutType],
    [Fingering::calculatePlacement], [Fingering::layout] and
    [Fingering::propertyDefault], and the properties of the placement policy
    and of the layout engine; then the inline functions of
    framework/global/types/string.h (UTF-16 surrogates, ASCII string views).

    Conventions of the embedding.
    - [qreal] (a C++ double) is read as an exact rational; rounding is not
      part of the model.  Comparisons [a > 0.0] become [qLt 0 a].  The
      properties of positions are therefore stated on the expressions that
      the code evaluates (what is added or subtracted, in which order and
      under which test), or are sign properties that any monotone rounding
      keeps.  A property that needs exact algebra, such as the fingering
      ending exactly clear of the structural edge after the step of lines
      174-177, does not carry over to doubles and is not stated.
    - A pointer that the source tests before use is an [option]; a pointer
      that the source dereferences without a test is a plain value.  The one
      pointer that is both tested (line 110) and dereferenced without a test
      (line 217) is [staff()]: the dereference of an absent staff makes
      [layout] return [None].
    - [int] values are [Z]; the only arithmetic on them, [nstaves - 1], is
      guarded by [nstaves > 1] and cannot overflow.
    - Code of the repository that is not in fingering.cpp (text layout, the
      skyline, the offset rebase helpers) is collected in the class
      [Collaborators]; the layout engine is defined over any instance. *)

From Stdlib Require Import QArith Qminmax Lqa ZArith Bool List String Lia.
Import ListNotations.

Local Open Scope Q_scope.

(** ** Numbers and geometry *)

Definition qreal : Type := Q.

(** [a < b] on [qreal], as a boolean. *)
Definition qLt (a b : qreal) : bool := negb (Qle_bool b a).

Record PointF : Type := mkPointF { px : qreal; py : qreal }.

Definition PointF_add (p q : PointF) : PointF :=
  mkPointF (px p + px q) (py p + py q).

Infix "+p" := PointF_add (at level 50, left associativity).

Record RectF : Type := mkRectF { rx : qreal; ry : qreal; rw : qreal; rh : qreal }.

(** [RectF()], the null rectangle. *)
Definition RectF_null : RectF := mkRectF 0 0 0 0.

Definition top (r : RectF) : qreal := ry r.
Definition bottom (r : RectF) : qreal := ry r + rh r.
Definition width (r : RectF) : qreal := rw r.
Definition translated (r : RectF) (p : PointF) : RectF :=
  mkRectF (rx r + px p) (ry r + py p) (rw r) (rh r).

Record Fraction : Type := mkFraction { numerator : Z; denominator : Z }.

(** ** Enumerations *)

(** The members of [TextStyleType] that fingering.cpp names; every other
    member of the enumeration is [OTHER_TEXT_STYLE k]. *)
Inductive TextStyleType : Type :=
  | FINGERING
  | LH_GUITAR_FINGERING
  | RH_GUITAR_FINGERING
  | STRING_NUMBER
  | OTHER_TEXT_STYLE (k : nat).

(** The two members of [ElementType] that [layoutType] returns. *)
Inductive ElementType : Type := CHORD | NOTE.

Inductive PlacementV : Type := ABOVE | BELOW.

Inductive OffsetChange : Type := RELATIVE_OFFSET | NONE | ABSOLUTE_OFFSET.

Definition TextStyleType_eqb (a b : TextStyleType) : bool :=
  match a, b with
  | FINGERING, FINGERING => true
  | LH_GUITAR_FINGERING, LH_GUITAR_FINGERING => true
  | RH_GUITAR_FINGERING, RH_GUITAR_FINGERING => true
  | STRING_NUMBER, STRING_NUMBER => true
  | OTHER_TEXT_STYLE j, OTHER_TEXT_STYLE k => Nat.eqb j k
  | _, _ => false
  end.

Definition OffsetChange_eqb (a b : OffsetChange) : bool :=
  match a, b with
  | RELATIVE_OFFSET, RELATIVE_OFFSET | NONE, NONE
  | ABSOLUTE_OFFSET, ABSOLUTE_OFFSET => true
  | _, _ => false
  end.

(** ** The score context read by the fingering *)

Record Part : Type := mkPart { nstaves : Z }.

Record Staff : Type := mkStaff {
  st_idx : Z;                              (* idx() *)
  st_rstaff : Z;                           (* rstaff() *)
  st_part : Part;                          (* part() *)
  st_height : qreal;                       (* height() *)
  st_isTabStaff : Fraction -> bool;        (* isTabStaff(tick) *)
  st_showTabFingering : Fraction -> bool   (* staffType(tick)->showTabFingering() *)
}.

Record Stem : Type := mkStem { stem_y : qreal; stem_bbox : RectF }.

Record Measure : Type := mkMeasure {
  m_pos : PointF;
  m_hasVoices : Z -> Fraction -> Fraction -> bool   (* hasVoices(staffIdx, tick, ticks) *)
}.

Record Segment : Type := mkSegment { s_pos : PointF; s_measure : Measure }.

(** What the layout reads of a note: [n_pos] is [pos()], so that [x()] and
    [y()] are its coordinates, and [n_ipos] is [ipos()]. *)
Record NoteGeom : Type := mkNoteGeom {
  n_ipos : PointF;
  n_pos : PointF;
  n_bbox : RectF;
  n_mirror : bool;
  n_bboxRightPos : qreal;
  n_shape_left : qreal                      (* shape().left() *)
}.

Definition n_x (n : NoteGeom) : qreal := px (n_pos n).
Definition n_y (n : NoteGeom) : qreal := py (n_pos n).

Record Chord : Type := mkChord {
  ch_staff : Staff;              (* staff() *)
  ch_staffIdx : Z;               (* staffIdx() *)
  ch_vStaffIdx : Z;              (* vStaffIdx() *)
  ch_measure : Measure;          (* measure() *)
  ch_segment : Segment;          (* segment() *)
  ch_tick : Fraction;
  ch_actualTicks : Fraction;
  ch_up : bool;                  (* up(): the stem points up *)
  ch_notes : list NoteGeom;      (* notes() *)
  ch_beam : bool;                (* beam() is not null *)
  ch_stem : option Stem;         (* stem() *)
  ch_pos : PointF;
  ch_upNote : NoteGeom;          (* upNote() *)
  ch_downNote : NoteGeom         (* downNote() *)
}.

Record Note : Type := mkNote { n_geom :> NoteGeom; n_chord : Chord }.

(** ** The skyline of a system staff *)

Record SkylineSegment : Type := mkSkylineSegment {
  seg_x : qreal; seg_y : qreal; seg_w : qreal
}.

Record SkylineLine : Type := mkSkylineLine {
  sl_north : bool;
  sl_seg : list SkylineSegment
}.

(** [SkylineLine sk(n)]: a line without segments. *)
Definition SkylineLine_new (n : bool) : SkylineLine := mkSkylineLine n [].

Record Skyline : Type := mkSkyline { north : SkylineLine; south : SkylineLine }.

Record SysStaff : Type := mkSysStaff { skyline : Skyline }.

(** [sys_staff] is [System::staff(idx)]. *)
Record System : Type := mkSystem { sys_staff : Z -> SysStaff }.

(** ** The fingering *)

Record Fingering : Type := mkFingering {
  textStyleType : TextStyleType;
  plainText : string;
  spatium : qreal;
  parentTick : option Fraction;    (* explicitParent(), and parentItem()->tick() *)
  note : option Note;              (* note() *)
  staff : option Staff;            (* staff() *)
  autoplace : bool;
  placement : PlacementV;
  minDistance : qreal;             (* minDistance().val() *)
  minDistanceStyled : bool;        (* isStyled(Pid::MIN_DISTANCE) *)
  offsetChanged : OffsetChange;
  ipos : PointF;                   (* the position rxpos()/rypos() write to *)
  offset : PointF;
  bbox : RectF
}.

(** [pos()] is the internal position moved by the user offset. *)
Definition pos (f : Fingering) : PointF := ipos f +p offset f.

Definition height (f : Fingering) : qreal := rh (bbox f).

Definition placeAbove (f : Fingering) : bool :=
  match placement f with ABOVE => true | BELOW => false end.

(** The properties of the element that the offset rebase helpers may rewrite:
    the user offset and the minimum distance with its styled flag. *)
Record UserProps : Type := mkUserProps {
  up_offset : PointF;
  up_minDistance : qreal;
  up_minDistanceStyled : bool
}.

(** *** Setters *)

Definition setbbox (f : Fingering) (r : RectF) : Fingering :=
  mkFingering (textStyleType f) (plainText f) (spatium f) (parentTick f) (note f)
    (staff f) (autoplace f) (placement f) (minDistance f) (minDistanceStyled f)
    (offsetChanged f) (ipos f) (offset f) r.

Definition setPos (f : Fingering) (p : PointF) : Fingering :=
  mkFingering (textStyleType f) (plainText f) (spatium f) (parentTick f) (note f)
    (staff f) (autoplace f) (placement f) (minDistance f) (minDistanceStyled f)
    (offsetChanged f) p (offset f) (bbox f).

Definition set_rxpos (f : Fingering) (x : qreal) : Fingering :=
  setPos f (mkPointF x (py (ipos f))).

Definition set_rypos (f : Fingering) (y : qreal) : Fingering :=
  setPos f (mkPointF (px (ipos f)) y).

Definition setAutoplace (f : Fingering) (v : bool) : Fingering :=
  mkFingering (textStyleType f) (plainText f) (spatium f) (parentTick f) (note f)
    (staff f) v (placement f) (minDistance f) (minDistanceStyled f)
    (offsetChanged f) (ipos f) (offset f) (bbox f).

(** [setOffsetChanged(v)]: [false] clears the flag; [true] marks an absolute
    offset change (the default of the second argument). *)
Definition setOffsetChanged (f : Fingering) (v : bool) : Fingering :=
  mkFingering (textStyleType f) (plainText f) (spatium f) (parentTick f) (note f)
    (staff f) (autoplace f) (placement f) (minDistance f) (minDistanceStyled f)
    (if v then ABSOLUTE_OFFSET else NONE) (ipos f) (offset f) (bbox f).

Definition setUserProps (f : Fingering) (u : UserProps) : Fingering :=
  mkFingering (textStyleType f) (plainText f) (spatium f) (parentTick f) (note f)
    (staff f) (autoplace f) (placement f) (up_minDistance u)
    (up_minDistanceStyled u) (offsetChanged f) (ipos f) (up_offset u) (bbox f).

(** ** layoutType (lines 70-80) *)

Definition layoutType (f : Fingering) : ElementType :=
  match textStyleType f with
  | FINGERING | RH_GUITAR_FINGERING | STRING_NUMBER => CHORD
  | _ => NOTE
  end.

(** ** calculatePlacement (lines 86-99) *)

Definition calculatePlacement (f : Fingering) : PlacementV :=
  match note f with
  | None => ABOVE
  | Some n =>
      let chord := n_chord n in
      let staff := ch_staff chord in
      let part := st_part staff in
      let nstaves := nstaves part in
      let voices :=
        m_hasVoices (ch_measure chord) (st_idx staff) (ch_tick chord)
          (ch_actualTicks chord) in
      let below :=
        if voices then negb (ch_up chord)
        else (1 <? nstaves)%Z && (st_rstaff staff =? nstaves - 1)%Z in
      if below then BELOW else ABOVE
  end.

(** ** Collaborators

    The calls that [Fingering::layout] makes into code outside fingering.cpp.
    Each is a parameter of the embedding:
    - [SkylineLine_add l x y w] is [l.add(x, y, w)] and
      [SkylineLine_minDistance l sl] is [l.minDistance(sl)] (skyline.cpp);
    - [TextBase_layout] is [TextBase::layout()] (textbase.cpp): the internal
      position and the bounding box that the text of the given style, content
      and staff space is laid out to;
    - [rebaseOffset f nox] is [rebaseOffset(nox)] and [rebaseMinDistance f md yd
      sp rebase above fix] is [rebaseMinDistance(md, yd, sp, rebase, above,
      fix)] (engravingitem.cpp): the first returns a vertical rebase, the
      second the new value of its by-reference argument [yd]; both may rewrite
      the user properties of the element. *)

Class Collaborators : Type := mkCollaborators {
  SkylineLine_add : SkylineLine -> qreal -> qreal -> qreal -> SkylineLine;
  SkylineLine_minDistance : SkylineLine -> SkylineLine -> qreal;
  TextBase_layout : TextStyleType -> string -> qreal -> PointF * RectF;
  rebaseOffset : Fingering -> bool -> qreal * UserProps;
  rebaseMinDistance :
    Fingering -> qreal -> qreal -> qreal -> qreal -> bool -> bool ->
    qreal * UserProps
}.

(** The calls into the collaborators, in the order a run of [layout] makes
    them. *)
Inductive Call : Type :=
  | CallTextBaseLayout
  | CallRebaseOffset (nox : bool)
  | CallMinDistance (this sl : SkylineLine)
  | CallRebaseMinDistance (md yd sp rebase : qreal) (above inStaff : bool).

(** The state a layout pass works on: the fingering, and the system whose
    staff skylines [m->system()->staff(i)->skyline()] it reaches. *)
Record World : Type := mkWorld { w_fingering : Fingering; w_system : System }.

Section Layout.

Context {C : Collaborators}.

(** *** Lines 107-114: a tablature staff that hides fingering. *)
Definition tabSuppressed (f : Fingering) : bool :=
  match parentTick f with
  | Some tick =>
      match staff f with
      | Some st => st_isTabStaff st tick && negb (st_showTabFingering st tick)
      | None => false
      end
  | None => false
  end.

(** *** Line 116: [TextBase::layout()] writes position and bounding box. *)
Definition textBaseLayout (f : Fingering) : Fingering :=
  let t := TextBase_layout (textStyleType f) (plainText f) (spatium f) in
  setbbox (setPos f (fst t)) (snd t).

(** *** Lines 122-123. *)
Definition layoutVoices (chord : Chord) : bool :=
  m_hasVoices (ch_measure chord) (ch_staffIdx chord) (ch_tick chord)
    (ch_actualTicks chord).

Definition layoutTight (f : Fingering) (n : Note) : bool :=
  let chord := n_chord n in
  layoutVoices chord && (List.length (ch_notes chord) =? 1)%nat
  && negb (ch_beam chord)
  && negb (TextStyleType_eqb (textStyleType f) STRING_NUMBER).

(** *** Lines 157 and 193: the bounding box in system coordinates. *)
Definition bboxInSystem (n : Note) (f : Fingering) : RectF :=
  let chord := n_chord n in
  let s := ch_segment chord in
  let m := s_measure s in
  translated (bbox f) (m_pos m +p s_pos s +p ch_pos chord +p n_pos n +p pos f).

(** *** Lines 181 and 217: the [inStaff] argument.  The conditional operator
    evaluates only the selected side, so [staff()] is dereferenced only when
    [above] is false. *)
Definition inStaffArg (above : bool) (r : RectF) (rebase : qreal)
    (st : option Staff) : option bool :=
  if above then Some (qLt 0 (bottom r + rebase))
  else match st with
       | Some s => Some (qLt (top r + rebase) (st_height s))
       | None => None
       end.

(** *** Lines 158-164: distance to the north skyline and the push it asks for. *)
Definition aboveSk (n : Note) (f : Fingering) : SkylineLine :=
  let r := bboxInSystem n f in
  SkylineLine_add (SkylineLine_new false) (rx r) (bottom r) (width r).

Definition aboveD (ss : SysStaff) (n : Note) (f : Fingering) : qreal :=
  SkylineLine_minDistance (aboveSk n f) (north (skyline ss)).

Definition aboveSkylineYd (d : qreal) (f : Fingering) : qreal :=
  let yd := 0 in
  if qLt 0 d && minDistanceStyled f then yd - (d + height f * 0.25) else yd.

(** *** Lines 166-177: extra space above staff and chord. *)
Definition aboveTop (chord : Chord) (md : qreal) : qreal :=
  let top_ :=
    match ch_up chord && ch_beam chord, ch_stem chord with
    | true, Some stem => stem_y stem + top (stem_bbox stem)
    | _, _ => let un := ch_upNote chord in Qmin 0 (n_y un + top (n_bbox un))
    end in
  top_ - md.

Definition aboveClamp (n : Note) (md yd : qreal) (f : Fingering) : qreal :=
  let diff := (bottom (bbox f) + py (ipos f) + yd + n_y n) - aboveTop (n_chord n) md in
  if qLt 0 diff then yd - diff else yd.

(** *** Lines 194-200: distance to the south skyline and the push it asks for. *)
Definition belowSk (n : Note) (f : Fingering) : SkylineLine :=
  let r := bboxInSystem n f in
  SkylineLine_add (SkylineLine_new true) (rx r) (top r) (width r).

Definition belowD (ss : SysStaff) (n : Note) (f : Fingering) : qreal :=
  SkylineLine_minDistance (south (skyline ss)) (belowSk n f).

Definition belowSkylineYd (d : qreal) (f : Fingering) : qreal :=
  let yd := 0 in
  if qLt 0 d && minDistanceStyled f then yd + (d + height f * 0.25) else yd.

(** *** Lines 202-213: extra space below staff and chord. *)
Definition belowBottom (chord : Chord) (md : qreal) : qreal :=
  let vStaff := ch_staff chord in
  let bottom_ :=
    match negb (ch_up chord) && ch_beam chord, ch_stem chord with
    | true, Some stem => stem_y stem + bottom (stem_bbox stem)
    | _, _ =>
        let dn := ch_downNote chord in
        Qmax (st_height vStaff) (n_y dn + bottom (n_bbox dn))
    end in
  bottom_ + md.

Definition belowClamp (n : Note) (md yd : qreal) (f : Fingering) : qreal :=
  let diff := belowBottom (n_chord n) md - (top (bbox f) + py (ipos f) + yd + n_y n) in
  if qLt 0 diff then yd + diff else yd.

(** *** Lines 178-184 and 214-220: rebase after a user move, then
    [rypos() += yd].  [r] is the rectangle of line 157 or 193 and [d_call]
    the skyline query already made. *)
Definition rebaseAndMove (r : RectF) (md yd0 rebase : qreal) (above : bool)
    (d_call : Call) (f : Fingering) : option (Fingering * list Call) :=
  let sp := spatium f in
  if negb (OffsetChange_eqb (offsetChanged f) NONE) then
    match inStaffArg above r rebase (staff f) with
    | None => None
    | Some inStaff =>
        let res := rebaseMinDistance f md yd0 sp rebase above inStaff in
        let yd := fst res in
        let f := setUserProps f (snd res) in
        Some (set_rypos f (py (ipos f) + yd),
              [d_call; CallRebaseMinDistance md yd0 sp rebase above inStaff])
    end
  else Some (set_rypos f (py (ipos f) + yd0), [d_call]).

(** *** Lines 157-184: placement above, not tight. *)
Definition layoutAbove (ss : SysStaff) (n : Note) (md rebase : qreal)
    (above : bool) (f : Fingering) : option (Fingering * list Call) :=
  let r := bboxInSystem n f in
  let d := aboveD ss n f in
  let yd := aboveSkylineYd d f in
  let yd := aboveClamp n md yd f in
  rebaseAndMove r md yd rebase above
    (CallMinDistance (aboveSk n f) (north (skyline ss))) f.

(** *** Lines 193-220: placement below, not tight. *)
Definition layoutBelow (ss : SysStaff) (n : Note) (md rebase : qreal)
    (above : bool) (f : Fingering) : option (Fingering * list Call) :=
  let r := bboxInSystem n f in
  let d := belowD ss n f in
  let yd := belowSkylineYd d f in
  let yd := belowClamp n md yd f in
  rebaseAndMove r md yd rebase above
    (CallMinDistance (south (skyline ss)) (belowSk n f)) f.

(** *** Lines 146-149: horizontal centring on the note head. *)
Definition centreOnHead (n : Note) (headWidth : qreal) (f : Fingering) : Fingering :=
  let f := if n_mirror n then set_rxpos f (px (ipos f) - px (n_ipos n)) else f in
  set_rxpos f (px (ipos f) + headWidth * 0.5).

(** *** Lines 137-222: the chord layout type. *)
Definition layoutChord (sys : System) (n : Note) (tight : bool)
    (headWidth rebase : qreal) (f : Fingering) : option (Fingering * list Call) :=
  let chord := n_chord n in
  let above := placeAbove f in
  let sp := spatium f in
  let md := minDistance f * sp in
  let ss := sys_staff sys (ch_vStaffIdx chord) in
  let f := centreOnHead n headWidth f in
  if above then
    if tight then
      let f := match ch_stem chord with
               | Some _ => set_rxpos f (px (ipos f) - 0.8 * sp)
               | None => f
               end in
      Some (set_rypos f (py (ipos f) - 1.5 * sp), [])
    else layoutAbove ss n md rebase above f
  else
    if tight then
      let f := match ch_stem chord with
               | Some _ => set_rxpos f (px (ipos f) + 0.8 * sp)
               | None => f
               end in
      Some (set_rypos f (py (ipos f) + 1.5 * sp), [])
    else layoutBelow ss n md rebase above f.

(** *** Lines 223-231: to the left of the note. *)
Definition layoutLeftOfNote (n : Note) (f : Fingering) : Fingering :=
  let left := n_shape_left n in
  if qLt 0 (left - n_x n) then set_rxpos f (px (ipos f) - left)
  else set_rxpos f (px (ipos f) - n_x n).

(** *** Lines 127-131: update the offset after a drag.  [rebaseOffset()] is
    called with its default argument, [nox = true]. *)
Definition rebaseAfterDrag (tight : bool) (f : Fingering)
    : qreal * Fingering * list Call :=
  if negb (OffsetChange_eqb (offsetChanged f) NONE) && negb tight then
    let res := rebaseOffset f true in
    (fst res, setUserProps f (snd res), [CallRebaseOffset true])
  else (0, f, []).

(** *** Lines 119-235: the autoplace branch, between [TextBase::layout()] and
    [setOffsetChanged(false)]. *)
Definition layoutAutoplace (sys : System) (n : Note) (f : Fingering)
    : option (Fingering * list Call) :=
  let tight := layoutTight f n in
  let headWidth := n_bboxRightPos n in
  let dragged := rebaseAfterDrag tight f in
  let rebase := fst (fst dragged) in
  let tr := snd dragged in
  let f := snd (fst dragged) in
  let f := setAutoplace f false in
  let res :=
    match layoutType f with
    | CHORD => layoutChord sys n tight headWidth rebase f
    | NOTE =>
        if TextStyleType_eqb (textStyleType f) LH_GUITAR_FINGERING
        then Some (layoutLeftOfNote n f, [])
        else Some (f, [])
    end in
  match res with
  | None => None
  | Some (f, tr') => Some (setAutoplace f true, tr ++ tr')
  end.

(** *** Lines 236-239: no autoplace, or no note. *)
Definition layoutNoAutoplace (f : Fingering) : Fingering * list Call :=
  if negb (OffsetChange_eqb (offsetChanged f) NONE) then
    let res := rebaseOffset f false in
    (setUserProps f (snd res), [CallRebaseOffset false])
  else (f, []).

(** *** Fingering::layout (lines 105-241), with the calls it makes. *)
Definition layout_run (w : World) : option (World * list Call) :=
  let f := w_fingering w in
  let sys := w_system w in
  if tabSuppressed f then Some (mkWorld (setbbox f RectF_null) sys, [])
  else
    let f := textBaseLayout f in
    let f := set_rypos f 0 in
    let res :=
      match autoplace f, note f with
      | true, Some n => layoutAutoplace sys n f
      | _, _ => Some (layoutNoAutoplace f)
      end in
    match res with
    | None => None
    | Some (f, tr) =>
        Some (mkWorld (setOffsetChanged f false) sys, CallTextBaseLayout :: tr)
    end.

Definition layout (w : World) : option World := option_map fst (layout_run w).

End Layout.

(** ** Vocabulary of the properties *)

(** The voices test of [calculatePlacement] (line 96). *)
Definition placementVoices (chord : Chord) : bool :=
  m_hasVoices (ch_measure chord) (st_idx (ch_staff chord)) (ch_tick chord)
    (ch_actualTicks chord).

(** The staff of the chord is the last one of a part of several staves. *)
Definition lastStaffOfSeveral (chord : Chord) : Prop :=
  let staff := ch_staff chord in
  (1 < nstaves (st_part staff) /\ st_rstaff staff = nstaves (st_part staff) - 1)%Z.

(** The four conditions of tight mode. *)
Definition tightConditions (f : Fingering) (n : Note) : Prop :=
  List.length (ch_notes (n_chord n)) = 1%nat
  /\ ch_beam (n_chord n) = false
  /\ layoutVoices (n_chord n) = true
  /\ textStyleType f <> STRING_NUMBER.

(** What the structural edge (stem and beam, or the outer note head, moved by
    the minimum distance) still asks for after a push of [push]. *)
Definition shortfallAbove (n : Note) (md push : qreal) (h : Fingering) : qreal :=
  bottom (bbox h) - push + n_y n - aboveTop (n_chord n) md.

Definition shortfallBelow (n : Note) (md push : qreal) (h : Fingering) : qreal :=
  belowBottom (n_chord n) md - (top (bbox h) + push + n_y n).

(** The properties of a fingering that a layout without a pending user move
    leaves alone: everything but position, bounding box and the two flags. *)
Definition props (f : Fingering) :=
  (textStyleType f, plainText f, spatium f, parentTick f, note f, staff f,
   placement f, minDistance f, minDistanceStyled f, offset f).

Section Vocabulary.

Context {C : Collaborators}.

(** The fingering as line 119 finds it: text laid out, [rypos()] zero. *)
Definition afterText (f : Fingering) : Fingering :=
  set_rypos (textBaseLayout f) 0.

(** The fingering as lines 150 and 186 find it, in the chord layout type:
    offset rebased after a drag, taken out of the chord shape, centred on the
    note head. *)
Definition atChordBranch (f : Fingering) (n : Note) : Fingering :=
  let g := afterText f in
  centreOnHead n (n_bboxRightPos n)
    (setAutoplace (snd (fst (rebaseAfterDrag (layoutTight g n) g))) false).

(** The rebase that line 130 computes. *)
Definition rebaseOf (f : Fingering) (n : Note) : qreal :=
  let g := afterText f in
  fst (fst (rebaseAfterDrag (layoutTight g n) g)).

(** The calls of lines 127-131. *)
Definition dragCalls (f : Fingering) (n : Note) : list Call :=
  let g := afterText f in
  snd (rebaseAfterDrag (layoutTight g n) g).

(** The horizontal position after centring on the note head (lines 146-149). *)
Definition centredX (f : Fingering) (n : Note) : qreal :=
  px (ipos (centreOnHead n (n_bboxRightPos n) (afterText f))).

(** The skyline query of the non-tight chord path: the fingering's own edge
    against the north profile when placing above, the south profile against
    the fingering's own edge when placing below. *)
Definition skylineQuery (above : bool) (ss : SysStaff) (n : Note) (h : Fingering)
    : Call :=
  if above then CallMinDistance (aboveSk n h) (north (skyline ss))
  else CallMinDistance (south (skyline ss)) (belowSk n h).

Definition skylineDistance (above : bool) (ss : SysStaff) (n : Note)
    (h : Fingering) : qreal :=
  if above then aboveD ss n h else belowD ss n h.

(** A rectangle edge has been put into one of the two profiles of a staff
    skyline. *)
Definition insertedInSkyline (before after : Skyline) (r : RectF) : Prop :=
  exists y,
    north after = SkylineLine_add (north before) (rx r) y (width r)
    \/ south after = SkylineLine_add (south before) (rx r) y (width r).

End Vocabulary.

(** ** A list skyline and simple text metrics

    An instance of [Collaborators] on which the layout can be run on
    concrete scores. *)

Module Sample.

(** Modelled from the spec: [SkylineLine::add] (skyline.cpp) is not in src.
    Section 3 gives a profile as a sequence of spans sorted by their start and
    section 4.1 says that zero-width spans are dropped.  The span is put
    before the first span that starts further right. *)
Fixpoint insertSegment (s : SkylineSegment) (l : list SkylineSegment)
    : list SkylineSegment :=
  match l with
  | [] => [s]
  | t :: l' => if Qle_bool (seg_x s) (seg_x t) then s :: l
               else t :: insertSegment s l'
  end.

Definition lineAdd (l : SkylineLine) (x y w : qreal) : SkylineLine :=
  if Qle_bool w 0 then l
  else mkSkylineLine (sl_north l) (insertSegment (mkSkylineSegment x y w) (sl_seg l)).

(** Modelled from the spec: [SkylineLine::minDistance] (skyline.cpp) is not in
    src.  Section 4.1: the distance is taken over the spans of the two
    profiles that overlap horizontally, and a sentinel is returned when there
    are none.  The distance of two spans is the amount by which the receiver's
    edge lies below the argument's; the sentinel is [-1000000]. *)
Definition overlaps (a b : SkylineSegment) : bool :=
  qLt (seg_x b) (seg_x a + seg_w a) && qLt (seg_x a) (seg_x b + seg_w b).

Definition lineMinDistance (l sl : SkylineLine) : qreal :=
  fold_left
    (fun dist a =>
       fold_left
         (fun dist b => if overlaps a b then Qmax dist (seg_y a - seg_y b) else dist)
         (sl_seg sl) dist)
    (sl_seg l) (-1000000).

(** Modelled from the spec: [TextBase::layout] (textbase.cpp) is not in src.
    Section 6: text metrics give a bounding box from content and style.  Each
    character is half a staff space wide, the text one and a half staff
    spaces high and it sits on its base line at the origin. *)
Definition textLayout (_ : TextStyleType) (s : string) (sp : qreal) : PointF * RectF :=
  (mkPointF 0 0,
   mkRectF 0 (- (1.5 * sp)) (inject_Z (Z.of_nat (String.length s)) * (0.5 * sp)) (1.5 * sp)).

(** Modelled from the spec: [EngravingItem::rebaseOffset] (engravingitem.cpp)
    is not in src.  Section 4.4: the manual offset is a delta relative to the
    previous automatic result.  The vertical part of the user offset is
    the rebase; the horizontal part is dropped unless [nox]. *)
Definition sampleRebaseOffset (f : Fingering) (nox : bool) : qreal * UserProps :=
  (py (offset f),
   mkUserProps (if nox then offset f else mkPointF 0 (py (offset f)))
     (minDistance f) (minDistanceStyled f)).

(** Modelled from the spec: [EngravingItem::rebaseMinDistance]
    (engravingitem.cpp) is not in src.  Section 4.4: a side-dependent sign
    and an in-staff branch decide how the minimum distance enters.  Inside
    the staff the automatic delta is dropped and the minimum distance
    becomes the element's own; outside it absorbs the delta. *)
Definition sampleRebaseMinDistance (f : Fingering) (md yd sp rebase : qreal)
    (above inStaff : bool) : qreal * UserProps :=
  if inStaff then (0, mkUserProps (offset f) (minDistance f) false)
  else (yd + rebase,
        mkUserProps (offset f) ((if above then md + yd else md - yd) / sp) false).

Definition collaborators : Collaborators :=
  mkCollaborators lineAdd lineMinDistance textLayout sampleRebaseOffset sampleRebaseMinDistance.

(** *** A small score: one part, one measure, one chord. *)

Definition tick0 : Fraction := mkFraction 0 1.
Definition quarter : Fraction := mkFraction 1 4.

Definition aPart (n : Z) : Part := mkPart n.

(** A staff of five lines, four staff spaces high ([sp = 5]). *)
Definition aStaff (rstaff nstaves : Z) (tab showFingering : bool) : Staff :=
  mkStaff rstaff rstaff (aPart nstaves) 20 (fun _ => tab) (fun _ => showFingering).

Definition aMeasure (voices : bool) : Measure :=
  mkMeasure (mkPointF 100 0) (fun _ _ _ => voices).

Definition aHead (mirror : bool) : NoteGeom :=
  mkNoteGeom (mkPointF 1 10) (mkPointF 1 10) (mkRectF 0 (-2.5) 6 5) mirror 6 (-3).

Definition aStem : Stem := mkStem 10 (mkRectF 6 (-17.5) 0.5 17.5).

Definition aChord (st : Staff) (voices up beam stem mirror : bool) : Chord :=
  mkChord st (st_idx st) (st_idx st) (aMeasure voices)
    (mkSegment (mkPointF 30 0) (aMeasure voices)) tick0 quarter up
    [aHead mirror] beam (if stem then Some aStem else None) (mkPointF 0 0)
    (aHead mirror) (aHead mirror).

Definition aNote (st : Staff) (voices up beam stem mirror : bool) : Note :=
  mkNote (aHead mirror) (aChord st voices up beam stem mirror).

(** A fingering "3" on a note of the chord, not yet laid out. *)
Definition aFingering (style : TextStyleType) (st : Staff) (n : option Note)
    (auto : bool) (pl : PlacementV) (oc : OffsetChange) : Fingering :=
  mkFingering style "3"%string 5 (Some tick0) n (Some st) auto pl 0.5 true oc
    (mkPointF 7 7) (mkPointF 0 0) (mkRectF 0 0 1 1).

Definition emptySkyline : Skyline :=
  mkSkyline (SkylineLine_new true) (SkylineLine_new false).

(** A system whose staves all carry the skyline [sk]. *)
Definition aSystem (sk : Skyline) : System := mkSystem (fun _ => mkSysStaff sk).

(** A skyline with one obstacle above and one below the staff, over the
    note. *)
Definition busySkyline : Skyline :=
  mkSkyline (mkSkylineLine true [mkSkylineSegment 120 (-12) 40])
            (mkSkylineLine false [mkSkylineSegment 120 32 40]).

(** *** Fingerings on that score. *)

(** A single staff, the last staff of a piano part, and a tablature staff
    that hides fingering. *)
Definition staff1 : Staff := aStaff 0 1 false true.
Definition lastOfTwo : Staff := aStaff 1 2 false true.
Definition tabStaff : Staff := aStaff 0 1 true false.

(** A stemmed, unbeamed, stem-up note: with a second voice in the measure,
    and alone. *)
Definition voiceNote (st : Staff) : Note := aNote st true true false true false.
Definition soloNote (st : Staff) : Note := aNote st false true false true false.

Definition onSystem (sk : Skyline) (f : Fingering) : World := mkWorld f (aSystem sk).

Definition voiceFingering : Fingering :=
  aFingering FINGERING staff1 (Some (voiceNote staff1)) true ABOVE NONE.

Definition lastStaffFingering : Fingering :=
  aFingering FINGERING lastOfTwo (Some (soloNote lastOfTwo)) true BELOW NONE.

Definition tightWorld : World := onSystem busySkyline voiceFingering.

Definition tightTabWorld : World :=
  onSystem busySkyline
    (aFingering FINGERING tabStaff (Some (voiceNote tabStaff)) true ABOVE NONE).

Definition aboveWorld : World :=
  onSystem busySkyline
    (aFingering FINGERING staff1 (Some (soloNote staff1)) true ABOVE NONE).

Definition belowDraggedWorld : World :=
  onSystem busySkyline
    (aFingering FINGERING staff1 (Some (soloNote staff1)) true BELOW ABSOLUTE_OFFSET).

Definition quietWorld : World :=
  onSystem emptySkyline
    (aFingering FINGERING staff1 (Some (soloNote staff1)) true ABOVE NONE).

Definition leftHandWorld : World :=
  onSystem busySkyline
    (aFingering LH_GUITAR_FINGERING staff1 (Some (soloNote staff1)) true ABOVE NONE).

Definition leftHandTabWorld : World :=
  onSystem busySkyline
    (aFingering LH_GUITAR_FINGERING tabStaff (Some (soloNote tabStaff)) true ABOVE
       NONE).

Definition looseWorld : World :=
  onSystem busySkyline (aFingering FINGERING staff1 None true ABOVE ABSOLUTE_OFFSET).

End Sample.

(** ** propertyDefault (lines 270-280) *)

(** The property ids that fingering.cpp names; every other member of [Pid]
    is [OTHER_PID k]. *)
Inductive Pid : Type := PLACEMENT | MIN_DISTANCE | TEXT_STYLE | OTHER_PID (k : nat).

(** A [PropertyValue]: the two kinds of value that [propertyDefault] builds
    itself, and whatever the base class returns. *)
Inductive PropertyValue (B : Type) : Type :=
  | PlacementValue (p : PlacementV)
  | TextStyleValue (t : TextStyleType)
  | BaseValue (b : B).

Arguments PlacementValue {B} p.
Arguments TextStyleValue {B} t.
Arguments BaseValue {B} b.

(** [base] is [TextBase::propertyDefault] (textbase.cpp). *)
Definition propertyDefault {B : Type} (base : Fingering -> Pid -> B)
    (f : Fingering) (id : Pid) : PropertyValue B :=
  match id with
  | PLACEMENT => PlacementValue (calculatePlacement f)
  | TEXT_STYLE => TextStyleValue FINGERING
  | _ => BaseValue (base f id)
  end.

(** ** More vocabulary *)

(** The fingering with another [offsetChanged] flag. *)
Definition withOffsetChanged (f : Fingering) (oc : OffsetChange) : Fingering :=
  mkFingering (textStyleType f) (plainText f) (spatium f) (parentTick f) (note f)
    (staff f) (autoplace f) (placement f) (minDistance f) (minDistanceStyled f)
    oc (ipos f) (offset f) (bbox f).

Definition isSkylineCall (c : Call) : bool :=
  match c with CallMinDistance _ _ => true | _ => false end.

Definition isRebaseCall (c : Call) : bool :=
  match c with
  | CallRebaseOffset _ | CallRebaseMinDistance _ _ _ _ _ _ => true
  | _ => false
  end.

(** The fingering is laid out against the skyline: shown, autoplaced, on a
    note, of the chord layout type and not tight. *)
Definition skylinePath (f : Fingering) : Prop :=
  tabSuppressed f = false /\ autoplace f = true
  /\ exists n, note f = Some n /\ layoutType f = CHORD /\ layoutTight f n = false.

(** The fingering is laid out in tight mode. *)
Definition tightPath (f : Fingering) : Prop :=
  autoplace f = true /\ exists n, note f = Some n /\ layoutTight f n = true.

(** ** Characters and ASCII views (framework/global/types/string.h)

    The inline functions of string.h.  [char16_t] is a 16-bit and [uint] a
    32-bit unsigned integer, read as [Z] with the wrap-around written out;
    [size_t] values are only compared and are [nat]; a [char] is an
    [Ascii.ascii], ordered by its value as an unsigned byte, which is how
    [memcmp] orders it. *)

Module Char.

Local Open Scope Z_scope.

Definition to_uint (z : Z) : Z := z mod 2 ^ 32.
Definition to_char16 (z : Z) : Z := z mod 2 ^ 16.

(** Line 117: [char16_t((ucs4 >> 10) + 0xd7c0)]. *)
Definition highSurrogate (ucs4 : Z) : Z :=
  to_char16 (to_uint (Z.shiftr ucs4 10 + 0xd7c0)).

(** Line 118: [char16_t(ucs4 % 0x400 + 0xdc00)]. *)
Definition lowSurrogate (ucs4 : Z) : Z :=
  to_char16 (to_uint (ucs4 mod 0x400 + 0xdc00)).

(** The code points that UTF-16 writes as a surrogate pair, and the two
    ranges of surrogate code units. *)
Definition supplementary (u : Z) : Prop := 0x10000 <= u <= 0x10FFFF.
Definition isHighSurrogate (c : Z) : Prop := 0xD800 <= c <= 0xDBFF.
Definition isLowSurrogate (c : Z) : Prop := 0xDC00 <= c <= 0xDFFF.

End Char.

Module AsciiStringView.

Local Open Scope nat_scope.

(** A [const char*]: [None] is the null pointer, [Some buf] points to the
    chars [buf] that can be read from it on. *)
Definition cstring : Type := option (list Ascii.ascii).

Definition isNul (c : Ascii.ascii) : bool := Ascii.eqb c Ascii.zero.

(** [std::char_traits<char>::length]: the number of chars before the first
    NUL; there is no result when the readable chars hold no NUL. *)
Fixpoint strlen (buf : list Ascii.ascii) : option nat :=
  match buf with
  | [] => None
  | c :: rest => if isNul c then Some 0 else option_map S (strlen rest)
  end.

(** The order of two runs of bytes of the same length. *)
Fixpoint compareBytes (a b : list Ascii.ascii) : comparison :=
  match a, b with
  | x :: a', y :: b' =>
      match Ascii.compare x y with
      | Eq => compareBytes a' b'
      | c => c
      end
  | _, _ => Eq
  end.

(** [std::memcmp(p, q, n)]: the order of the first [n] bytes.  No byte is
    read when [n] is zero; otherwise both pointers must have [n] readable
    bytes, and there is no result when they have not. *)
Definition memcmp (p q : cstring) (n : nat) : option comparison :=
  if n =? 0 then Some Eq
  else match p, q with
       | Some a, Some b =>
           if (n <=? List.length a) && (n <=? List.length b)
           then Some (compareBytes (firstn n a) (firstn n b))
           else None
       | _, _ => None
       end.

Definition isEq (c : comparison) : bool :=
  match c with Eq => true | _ => false end.

Definition isLt (c : comparison) : bool :=
  match c with Lt => true | _ => false end.

(** Lines 318-320. *)
Record t : Type := mk { m_size : nat; m_data : cstring }.

(** Line 279. *)
Definition empty_view : t := mk 0 None.

(** Lines 280-281. *)
Definition fromCString (str : cstring) : option t :=
  match str with
  | Some buf => option_map (fun n => mk n str) (strlen buf)
  | None => Some (mk 0 str)
  end.

(** Lines 282-283. *)
Definition fromData (str : cstring) (size : nat) : t := mk size str.

(** Line 290: [&&] does not evaluate [memcmp] when the sizes differ. *)
Definition operator_eq (a s : t) : option bool :=
  if m_size a =? m_size s
  then option_map isEq (memcmp (m_data a) (m_data s) (m_size a))
  else Some false.

(** Line 291. *)
Definition operator_ne (a s : t) : option bool :=
  option_map negb (operator_eq a s).

(** Lines 292-296. *)
Definition operator_eq_cstr (a : t) (s : cstring) : option bool :=
  match (match s with Some buf => strlen buf | None => Some 0 end) with
  | None => None
  | Some sz =>
      if m_size a =? sz
      then match s with
           | Some _ => option_map isEq (memcmp (m_data a) s (m_size a))
           | None => Some true
           end
      else Some false
  end.

(** Lines 300-306. *)
Definition operator_lt (a s : t) : option bool :=
  if negb (m_size a =? m_size s) then Some (m_size a <? m_size s)
  else option_map isLt (memcmp (m_data a) (m_data s) (m_size a)).

(** A view is valid when its pointer has [m_size] readable chars. *)
Definition valid (a : t) : Prop :=
  match m_data a with
  | Some buf => m_size a <= List.length buf
  | None => m_size a = 0
  end.

(** The chars a view stands for. *)
Definition chars (a : t) : list Ascii.ascii :=
  firstn (m_size a) (match m_data a with Some buf => buf | None => [] end).

End AsciiStringView.

(** ** More sample inputs *)

Module SampleMore.

Import Sample.

(** The fingering of [aboveWorld] with autoplace switched off, dragged. *)
Definition manualWorld : World :=
  onSystem busySkyline
    (aFingering FINGERING staff1 (Some (soloNote staff1)) false ABOVE
       ABSOLUTE_OFFSET).

(** A fingering whose text style is none of the four of fingering.cpp. *)
Definition otherStyleWorld : World :=
  onSystem busySkyline
    (aFingering (OTHER_TEXT_STYLE 0) staff1 (Some (soloNote staff1)) true ABOVE
       NONE).

(** The skyline of the sample chord alone: the top of its note head in the
    north profile, the bottom of the head in the south profile. *)
Definition headSkyline : Skyline :=
  mkSkyline (mkSkylineLine true [mkSkylineSegment 131 7.5 6])
            (mkSkylineLine false [mkSkylineSegment 131 12.5 6]).

(** Fingerings on the note inside the staff, above and below it. *)
Definition nearAboveWorld : World :=
  onSystem headSkyline
    (aFingering FINGERING staff1 (Some (soloNote staff1)) true ABOVE NONE).

Definition nearBelowWorld : World :=
  onSystem headSkyline
    (aFingering FINGERING staff1 (Some (soloNote staff1)) true BELOW NONE).

(** The north profile of [busySkyline] over another south profile. *)
Definition otherSouthSkyline : Skyline :=
  mkSkyline (north busySkyline)
            (mkSkylineLine false [mkSkylineSegment 0 50 500]).

(** A C string, with its terminator. *)
Definition cstr (s : string) : AsciiStringView.cstring :=
  Some (list_ascii_of_string s ++ [Ascii.zero]).

(** Views of the first two chars of two strings, and longer views. *)
Definition viewAb : AsciiStringView.t := AsciiStringView.fromData (cstr "abc") 2.
Definition viewAb' : AsciiStringView.t := AsciiStringView.fromData (cstr "abx") 2.
Definition viewAbc : AsciiStringView.t := AsciiStringView.fromData (cstr "abc") 3.
Definition viewAbd : AsciiStringView.t := AsciiStringView.fromData (cstr "abd") 3.
Definition viewZ : AsciiStringView.t := AsciiStringView.fromData (cstr "z") 1.

End SampleMore.

(** * Properties *)

(** ** Comparisons on [qreal] *)

Lemma qLt_true_iff (a b : qreal) : qLt a b = true <-> a < b.
Proof.
  unfold qLt. rewrite negb_true_iff.
  split; intro H.
  - apply Qnot_le_lt. intro Hle. apply Qle_bool_iff in Hle. congruence.
  - destruct (Qle_bool b a) eqn:E; [|reflexivity].
    apply Qle_bool_iff in E. exfalso. exact (Qlt_not_le _ _ H E).
Qed.

Lemma qLt_false_iff (a b : qreal) : qLt a b = false <-> b <= a.
Proof.
  unfold qLt. rewrite negb_false_iff. apply Qle_bool_iff.
Qed.

(** ** The placement policy *)

Lemma calculatePlacement_note (f : Fingering) (n : Note) :
  note f = Some n ->
  calculatePlacement f =
    if (if placementVoices (n_chord n) then negb (ch_up (n_chord n))
        else (1 <? nstaves (st_part (ch_staff (n_chord n))))%Z
             && (st_rstaff (ch_staff (n_chord n))
                 =? nstaves (st_part (ch_staff (n_chord n))) - 1)%Z)
    then BELOW else ABOVE.
Proof.
  intro Hn. unfold calculatePlacement, placementVoices. rewrite Hn. reflexivity.
Qed.

(** C1, as amended.  With several voices at the chord's tick the placement
    follows the stem: [calculatePlacement] returns Above exactly when the
    stem points up and Below exactly when it points down, whatever the number
    of staves of the part. *)
Theorem calculatePlacement_voices (f : Fingering) (n : Note) :
  note f = Some n ->
  placementVoices (n_chord n) = true ->
  (calculatePlacement f = ABOVE <-> ch_up (n_chord n) = true)
  /\ (calculatePlacement f = BELOW <-> ch_up (n_chord n) = false).
Proof.
  intros Hn Hv. rewrite (calculatePlacement_note f n Hn), Hv.
  destruct (ch_up (n_chord n)); simpl; split; split; congruence.
Qed.

(** C5.  With a single voice at the chord's tick, [calculatePlacement]
    returns Below if and only if the part has more than one staff and the
    chord's staff is the last staff of the part; in every other single-voice
    case it returns Above. *)
Theorem calculatePlacement_single_voice (f : Fingering) (n : Note) :
  note f = Some n ->
  placementVoices (n_chord n) = false ->
  (calculatePlacement f = BELOW <-> lastStaffOfSeveral (n_chord n))
  /\ (calculatePlacement f = ABOVE <-> ~ lastStaffOfSeveral (n_chord n)).
Proof.
  intros Hn Hv. rewrite (calculatePlacement_note f n Hn), Hv.
  unfold lastStaffOfSeveral. cbv zeta.
  set (k := nstaves (st_part (ch_staff (n_chord n)))).
  set (r := st_rstaff (ch_staff (n_chord n))).
  destruct (Z.ltb_spec 1 k) as [E1|E1]; destruct (Z.eqb_spec r (k - 1)) as [E2|E2];
    simpl; split; split; intro H;
    solve [ discriminate | reflexivity | split; assumption
          | exfalso; apply H; split; assumption
          | intros [H1 H2]; first [ apply E2; exact H2 | lia ]
          | destruct H as [H1 H2]; first [ exfalso; apply E2; exact H2 | lia ] ].
Qed.

(** ** The layout engine *)

Section LayoutProperties.

Context {C : Collaborators}.

(** *** What the steps leave alone *)

Lemma layoutTight_afterText (f : Fingering) (n : Note) :
  layoutTight (afterText f) n = layoutTight f n.
Proof. reflexivity. Qed.

Lemma rebaseAfterDrag_frame (t : bool) (f : Fingering) :
  let g := snd (fst (rebaseAfterDrag t f)) in
  textStyleType g = textStyleType f /\ plainText g = plainText f
  /\ spatium g = spatium f /\ parentTick g = parentTick f /\ note g = note f
  /\ staff g = staff f /\ autoplace g = autoplace f
  /\ placement g = placement f /\ offsetChanged g = offsetChanged f
  /\ ipos g = ipos f /\ bbox g = bbox f.
Proof.
  unfold rebaseAfterDrag.
  destruct (negb (OffsetChange_eqb (offsetChanged f) NONE) && negb t);
    cbn; repeat split; reflexivity.
Qed.

Lemma rebaseAfterDrag_none (t : bool) (f : Fingering) :
  offsetChanged f = NONE -> rebaseAfterDrag t f = (0, f, []).
Proof. intro H. unfold rebaseAfterDrag. rewrite H. reflexivity. Qed.

Lemma rebaseAfterDrag_tight (f : Fingering) :
  rebaseAfterDrag true f = (0, f, []).
Proof. unfold rebaseAfterDrag. rewrite andb_false_r. reflexivity. Qed.

Lemma centreOnHead_frame (n : Note) (hw : qreal) (f : Fingering) :
  let g := centreOnHead n hw f in
  textStyleType g = textStyleType f /\ plainText g = plainText f
  /\ spatium g = spatium f /\ parentTick g = parentTick f /\ note g = note f
  /\ staff g = staff f /\ autoplace g = autoplace f
  /\ placement g = placement f /\ offsetChanged g = offsetChanged f
  /\ minDistance g = minDistance f
  /\ minDistanceStyled g = minDistanceStyled f /\ offset g = offset f
  /\ bbox g = bbox f /\ py (ipos g) = py (ipos f).
Proof.
  unfold centreOnHead. destruct (n_mirror n); cbn; repeat split; reflexivity.
Qed.

(** *** The three ways through [layout] *)

Lemma layout_run_tab (w : World) :
  tabSuppressed (w_fingering w) = true ->
  layout_run w
  = Some (mkWorld (setbbox (w_fingering w) RectF_null) (w_system w), []).
Proof. intro H. unfold layout_run. rewrite H. reflexivity. Qed.

Lemma layout_run_autoplace (w : World) (n : Note) :
  tabSuppressed (w_fingering w) = false ->
  autoplace (w_fingering w) = true ->
  note (w_fingering w) = Some n ->
  layout_run w
  = match layoutAutoplace (w_system w) n (afterText (w_fingering w)) with
    | None => None
    | Some (g, tr) =>
        Some (mkWorld (setOffsetChanged g false) (w_system w),
              CallTextBaseLayout :: tr)
    end.
Proof.
  intros Ht Ha Hn. unfold layout_run. rewrite Ht. cbv zeta.
  change (autoplace (set_rypos (textBaseLayout (w_fingering w)) 0))
    with (autoplace (w_fingering w)).
  change (note (set_rypos (textBaseLayout (w_fingering w)) 0))
    with (note (w_fingering w)).
  rewrite Ha, Hn. reflexivity.
Qed.

Lemma layout_run_plain (w : World) :
  tabSuppressed (w_fingering w) = false ->
  autoplace (w_fingering w) = false \/ note (w_fingering w) = None ->
  layout_run w
  = Some (mkWorld
            (setOffsetChanged
               (fst (layoutNoAutoplace (afterText (w_fingering w)))) false)
            (w_system w),
          CallTextBaseLayout
            :: snd (layoutNoAutoplace (afterText (w_fingering w)))).
Proof.
  intros Ht Hp. unfold layout_run. rewrite Ht. cbv zeta.
  change (autoplace (set_rypos (textBaseLayout (w_fingering w)) 0))
    with (autoplace (w_fingering w)).
  change (note (set_rypos (textBaseLayout (w_fingering w)) 0))
    with (note (w_fingering w)).
  fold (afterText (w_fingering w)).
  destruct (layoutNoAutoplace (afterText (w_fingering w))) as [g tr].
  destruct Hp as [Hp|Hp]; rewrite Hp.
  - reflexivity.
  - destruct (autoplace (w_fingering w)); reflexivity.
Qed.

Lemma layoutAutoplace_chord (sys : System) (n : Note) (f : Fingering) :
  layoutType f = CHORD ->
  layoutAutoplace sys n (afterText f)
  = match layoutChord sys n (layoutTight f n) (n_bboxRightPos n) (rebaseOf f n)
            (setAutoplace
               (snd (fst (rebaseAfterDrag (layoutTight f n) (afterText f)))) false)
    with
    | None => None
    | Some (h, tr) => Some (setAutoplace h true, dragCalls f n ++ tr)
    end.
Proof.
  intro Ht. unfold layoutAutoplace. cbv zeta.
  rewrite layoutTight_afterText.
  assert (E : layoutType
            (setAutoplace
               (snd (fst (rebaseAfterDrag (layoutTight f n) (afterText f)))) false)
          = CHORD).
  { unfold layoutType in *. cbn [textStyleType setAutoplace].
    destruct (rebaseAfterDrag_frame (layoutTight f n) (afterText f)) as [E _].
    cbv zeta in E. rewrite E. exact Ht. }
  rewrite E. reflexivity.
Qed.

Lemma atChordBranch_frame (f : Fingering) (n : Note) :
  let h := atChordBranch f n in
  textStyleType h = textStyleType f /\ spatium h = spatium f
  /\ staff h = staff f /\ placement h = placement f
  /\ offsetChanged h = offsetChanged f /\ autoplace h = false
  /\ bbox h = bbox (afterText f) /\ py (ipos h) = 0.
Proof.
  cbv zeta. unfold atChordBranch. cbv zeta.
  set (g := afterText f).
  destruct (centreOnHead_frame n (n_bboxRightPos n)
              (setAutoplace (snd (fst (rebaseAfterDrag (layoutTight g n) g))) false))
    as (E1 & _ & E3 & _ & _ & E6 & E7 & E8 & E9 & _ & _ & _ & E13 & E14).
  destruct (rebaseAfterDrag_frame (layoutTight g n) g)
    as (F1 & _ & F3 & _ & _ & F6 & _ & F8 & F9 & F10 & F11).
  cbv zeta in *. cbn [textStyleType spatium staff placement offsetChanged autoplace
                      bbox ipos setAutoplace] in *.
  rewrite E1, E3, E6, E7, E8, E9, E13, E14, F1, F3, F6, F8, F9, F10, F11.
  repeat split; reflexivity.
Qed.

Lemma layout_run_chord (w : World) (n : Note) :
  let f := w_fingering w in
  let h := atChordBranch f n in
  let ss := sys_staff (w_system w) (ch_vStaffIdx (n_chord n)) in
  let md := minDistance h * spatium h in
  tabSuppressed f = false -> autoplace f = true -> note f = Some n ->
  layoutType f = CHORD -> layoutTight f n = false ->
  layout_run w
  = match (if placeAbove f then layoutAbove ss n md (rebaseOf f n) true h
           else layoutBelow ss n md (rebaseOf f n) false h)
    with
    | None => None
    | Some (h', tr) =>
        Some (mkWorld (setOffsetChanged (setAutoplace h' true) false) (w_system w),
              CallTextBaseLayout :: dragCalls f n ++ tr)
    end.
Proof.
  intros f h ss md Htab Ha Hn Hty Htight.
  rewrite (layout_run_autoplace w n Htab Ha Hn).
  rewrite (layoutAutoplace_chord (w_system w) n (w_fingering w) Hty).
  fold f. rewrite Htight. unfold layoutChord. cbv zeta.
  set (g1 := setAutoplace (snd (fst (rebaseAfterDrag false (afterText f)))) false).
  assert (Eh : centreOnHead n (n_bboxRightPos n) g1 = h).
  { unfold h, atChordBranch. cbv zeta. rewrite layoutTight_afterText.
    fold f. rewrite Htight. reflexivity. }
  rewrite Eh.
  assert (Ep : placeAbove g1 = placeAbove f).
  { unfold placeAbove, g1. cbn [placement setAutoplace].
    destruct (rebaseAfterDrag_frame false (afterText f))
      as (_ & _ & _ & _ & _ & _ & _ & E & _).
    cbv zeta in E. rewrite E. reflexivity. }
  assert (Em : minDistance g1 * spatium g1 = md).
  { unfold md. rewrite <- Eh.
    destruct (centreOnHead_frame n (n_bboxRightPos n) g1)
      as (_ & _ & E3 & _ & _ & _ & _ & _ & _ & E10 & _).
    cbv zeta in E3, E10. rewrite E3, E10. reflexivity. }
  rewrite Ep, Em. fold ss.
  destruct (placeAbove f).
  - destruct (layoutAbove ss n md (rebaseOf f n) true h) as [[h' tr]|]; reflexivity.
  - destruct (layoutBelow ss n md (rebaseOf f n) false h) as [[h' tr]|]; reflexivity.
Qed.

Lemma centredX_eq (f : Fingering) (n : Note) :
  let x0 := px (fst (TextBase_layout (textStyleType f) (plainText f) (spatium f))) in
  centredX f n
  = (if n_mirror n then x0 - px (n_ipos n) else x0) + n_bboxRightPos n * 0.5.
Proof.
  unfold centredX, centreOnHead. destruct (n_mirror n); reflexivity.
Qed.

Lemma layoutTight_iff (f : Fingering) (n : Note) :
  layoutTight f n = true <-> tightConditions f n.
Proof.
  unfold layoutTight, tightConditions. cbv zeta.
  rewrite !andb_true_iff, !negb_true_iff, Nat.eqb_eq.
  assert (E : TextStyleType_eqb (textStyleType f) STRING_NUMBER = false
              <-> textStyleType f <> STRING_NUMBER).
  { destruct (textStyleType f); simpl; split; intro H;
      congruence || (exfalso; apply H; reflexivity). }
  rewrite E. tauto.
Qed.

(** C3, as amended.  For a fingering that is not hidden on a tablature staff,
    with autoplace enabled, an anchor note and the chord layout type: tight
    mode holds exactly when the chord has one note, no beam, several voices
    at its tick and the text style is not string-number.  In tight mode
    [layout] calls nothing but the text layout (no skyline query, no rebase)
    and, from the position centred on the note head, moves the fingering by
    0.8 staff spaces horizontally when the chord has a stem (to the left when
    placed above, to the right when placed below) and by 1.5 staff spaces
    vertically (up when placed above, down when placed below). *)
Theorem layout_tight (w : World) (n : Note) :
  let f := w_fingering w in
  let sp := spatium f in
  let x0 := px (fst (TextBase_layout (textStyleType f) (plainText f) (spatium f))) in
  tabSuppressed f = false -> autoplace f = true -> note f = Some n ->
  layoutType f = CHORD ->
  (layoutTight f n = true <-> tightConditions f n)
  /\ centredX f n
     = (if n_mirror n then x0 - px (n_ipos n) else x0) + n_bboxRightPos n * 0.5
  /\ (layoutTight f n = true ->
      exists f',
        layout_run w = Some (mkWorld f' (w_system w), [CallTextBaseLayout])
        /\ px (ipos f')
           = match ch_stem (n_chord n) with
             | Some _ => if placeAbove f then centredX f n - 0.8 * sp
                         else centredX f n + 0.8 * sp
             | None => centredX f n
             end
        /\ py (ipos f') = if placeAbove f then 0 - 1.5 * sp else 0 + 1.5 * sp).
Proof.
  intros f sp x0 Htab Ha Hn Hty. split; [apply layoutTight_iff|].
  split; [apply centredX_eq|].
  intro Htight.
  rewrite (layout_run_autoplace w n Htab Ha Hn).
  rewrite (layoutAutoplace_chord (w_system w) n (w_fingering w) Hty).
  fold f. unfold dragCalls, rebaseOf. cbv zeta.
  rewrite layoutTight_afterText, Htight, rebaseAfterDrag_tight.
  cbn [fst snd]. unfold layoutChord. cbv zeta.
  change (placeAbove (setAutoplace (afterText f) false)) with (placeAbove f).
  change (spatium (setAutoplace (afterText f) false)) with sp.
  assert (Ex : px (ipos (centreOnHead n (n_bboxRightPos n)
                           (setAutoplace (afterText f) false))) = centredX f n).
  { unfold centredX, centreOnHead. destruct (n_mirror n); reflexivity. }
  assert (Ey : py (ipos (centreOnHead n (n_bboxRightPos n)
                           (setAutoplace (afterText f) false))) = 0).
  { unfold centreOnHead. destruct (n_mirror n); reflexivity. }
  destruct (placeAbove f); destruct (ch_stem (n_chord n));
    eexists; (split; [reflexivity|]); cbn [ipos px py set_rypos set_rxpos setPos
      setOffsetChanged setAutoplace]; rewrite ?Ex, ?Ey; split; reflexivity.
Qed.

Lemma rebaseAndMove_none (r : RectF) (md yd rebase : qreal) (above : bool)
    (c : Call) (h : Fingering) :
  offsetChanged h = NONE ->
  rebaseAndMove r md yd rebase above c h
  = Some (set_rypos h (py (ipos h) + yd), [c]).
Proof. intro H. unfold rebaseAndMove. rewrite H. reflexivity. Qed.

Lemma dragCalls_none (f : Fingering) (n : Note) :
  offsetChanged f = NONE -> dragCalls f n = [].
Proof.
  intro H. unfold dragCalls. cbv zeta.
  rewrite rebaseAfterDrag_none; [reflexivity | exact H].
Qed.

Lemma Qmax_0_pos (s : qreal) : 0 < s -> Qmax 0 s == s.
Proof. intro H. apply Q.max_r. apply Qlt_le_weak. exact H. Qed.

Lemma Qmax_0_nonpos (s : qreal) : s <= 0 -> Qmax 0 s == 0.
Proof. intro H. apply Q.max_l. exact H. Qed.

Lemma aboveClamp_push (n : Note) (md yd p : qreal) (h : Fingering) :
  py (ipos h) = 0 -> yd == - p ->
  aboveClamp n md yd h == - p - Qmax 0 (shortfallAbove n md p h).
Proof.
  intros Hy Hyd. unfold aboveClamp, shortfallAbove. cbv zeta. rewrite Hy.
  set (t := aboveTop (n_chord n) md). set (b := bottom (bbox h)).
  destruct (qLt 0 (b + 0 + yd + n_y n - t)) eqn:E.
  - apply qLt_true_iff in E.
    rewrite Qmax_0_pos by lra. lra.
  - apply qLt_false_iff in E.
    rewrite Qmax_0_nonpos by lra. lra.
Qed.

Lemma belowClamp_push (n : Note) (md yd p : qreal) (h : Fingering) :
  py (ipos h) = 0 -> yd == p ->
  belowClamp n md yd h == p + Qmax 0 (shortfallBelow n md p h).
Proof.
  intros Hy Hyd. unfold belowClamp, shortfallBelow. cbv zeta. rewrite Hy.
  set (t := belowBottom (n_chord n) md). set (b := top (bbox h)).
  destruct (qLt 0 (t - (b + 0 + yd + n_y n))) eqn:E.
  - apply qLt_true_iff in E.
    rewrite Qmax_0_pos by lra. lra.
  - apply qLt_false_iff in E.
    rewrite Qmax_0_nonpos by lra. lra.
Qed.

Lemma dragCalls_dragged (f : Fingering) (n : Note) :
  offsetChanged f <> NONE -> layoutTight f n = false ->
  dragCalls f n = [CallRebaseOffset true].
Proof.
  intros H Ht. unfold dragCalls. cbv zeta. rewrite layoutTight_afterText, Ht.
  unfold rebaseAfterDrag.
  change (offsetChanged (afterText f)) with (offsetChanged f).
  destruct (offsetChanged f); try reflexivity. exfalso. apply H. reflexivity.
Qed.

(** C4, as amended.  In the non-tight chord layout path, the profile of the
    fingering's own bounding box (its bottom edge when placing above, its top
    edge when placing below, in system coordinates) is queried for
    [minDistance] against the profile of the staff skyline (north when
    placing above, south when placing below).  When the distance [d] is
    positive and MIN_DISTANCE is styled, the vertical displacement starts at
    [d + 0.25 * height] away from the staff: subtracted from zero when above,
    added when below.  Without a pending user move that is the final vertical
    position only when the structural edge of lines 166-173 or 202-209 is
    already cleared; when it is not, the fingering is moved further by the
    remaining overlap [diff].  With a pending user move the displacement so
    computed is passed to [rebaseMinDistance], and the value that comes back
    is the final vertical position. *)
Theorem layout_skyline_push (w : World) (n : Note) :
  let f := w_fingering w in
  let chord := n_chord n in
  let seg := ch_segment chord in
  let h := atChordBranch f n in
  let above := placeAbove f in
  let r := translated (bbox h)
             (m_pos (s_measure seg) +p s_pos seg +p ch_pos chord +p n_pos n
              +p pos h) in
  let sky := skyline (sys_staff (w_system w) (ch_vStaffIdx chord)) in
  let own := if above
             then SkylineLine_add (SkylineLine_new false) (rx r) (bottom r) (width r)
             else SkylineLine_add (SkylineLine_new true) (rx r) (top r) (width r) in
  let query := if above then CallMinDistance own (north sky)
               else CallMinDistance (south sky) own in
  let d := if above then SkylineLine_minDistance own (north sky)
           else SkylineLine_minDistance (south sky) own in
  let push := d + height h * 0.25 in
  let md := minDistance h * spatium h in
  let yd0 := if above then 0 - push else 0 + push in
  let diff := if above
              then (bottom (bbox h) + py (ipos h) + yd0 + n_y n) - aboveTop chord md
              else belowBottom chord md - (top (bbox h) + py (ipos h) + yd0 + n_y n) in
  let yd := if qLt 0 diff then (if above then yd0 - diff else yd0 + diff) else yd0 in
  tabSuppressed f = false -> autoplace f = true -> note f = Some n ->
  layoutType f = CHORD -> layoutTight f n = false ->
  (offsetChanged f = NONE ->
   exists f',
     layout_run w = Some (mkWorld f' (w_system w), [CallTextBaseLayout; query])
     /\ (0 < d -> minDistanceStyled h = true ->
         (diff <= 0 -> py (ipos f') == yd0)
         /\ (0 < diff -> py (ipos f') == if above then yd0 - diff else yd0 + diff)))
  /\ (offsetChanged f <> NONE -> above = true \/ staff f <> None ->
      exists f' yd' inStaff,
        layout_run w
        = Some (mkWorld f' (w_system w),
                [CallTextBaseLayout; CallRebaseOffset true; query;
                 CallRebaseMinDistance md yd' (spatium f) (rebaseOf f n) above
                   inStaff])
        /\ py (ipos f')
           == fst (rebaseMinDistance h md yd' (spatium f) (rebaseOf f n) above
                     inStaff)
        /\ (0 < d -> minDistanceStyled h = true -> yd' = yd)).
Proof.
  intros f chord seg h above r sky own query d push md yd0 diff yd
    Htab Ha Hn Hty Htight.
  pose proof (layout_run_chord w n Htab Ha Hn Hty Htight) as Hrun.
  cbv zeta in Hrun. fold f h md in Hrun.
  destruct (atChordBranch_frame f n) as (_ & Hsp & Hst & _ & Hoc & _ & _ & Hy).
  cbv zeta in Hsp, Hst, Hoc, Hy. fold h in Hsp, Hst, Hoc, Hy.
  assert (Hdrag : offsetChanged f <> NONE ->
                  negb (OffsetChange_eqb (offsetChanged f) NONE) = true).
  { intro H. destruct (offsetChanged f); try reflexivity. exfalso. apply H.
    reflexivity. }
  unfold yd, diff, yd0, push, d, query, own, sky, r, above.
  unfold layoutAbove, layoutBelow, aboveD, belowD, aboveSk, belowSk,
    bboxInSystem in Hrun. cbv zeta in Hrun. fold chord seg in Hrun.
  clear yd diff yd0 push d query own sky r above.
  destruct (placeAbove f) eqn:Hab.
  - split.
    + intro Hnone. rewrite Hrun.
      rewrite rebaseAndMove_none by (rewrite Hoc; exact Hnone).
      rewrite (dragCalls_none f n Hnone).
      eexists. split; [reflexivity|]. intros Hd Hs.
      cbn [w_fingering ipos py set_rypos setPos setOffsetChanged setAutoplace].
      apply qLt_true_iff in Hd.
      unfold aboveSkylineYd, aboveClamp. cbv zeta. rewrite Hd, Hs.
      cbn [andb]. fold chord. rewrite Hy.
      split; intro Hdiff.
      * apply qLt_false_iff in Hdiff. rewrite Hdiff. lra.
      * apply qLt_true_iff in Hdiff. rewrite Hdiff. lra.
    + intros Hoc' _. rewrite Hrun. unfold rebaseAndMove. cbv zeta.
      rewrite Hoc, (Hdrag Hoc'), Hsp. cbn [inStaffArg].
      rewrite (dragCalls_dragged f n Hoc' Htight).
      eexists. eexists. eexists. split; [reflexivity|].
      split.
      * cbn [w_fingering ipos py set_rypos setPos setOffsetChanged setAutoplace
               setUserProps]. rewrite Hy. lra.
      * intros Hd Hs. apply qLt_true_iff in Hd.
        unfold aboveSkylineYd, aboveClamp. cbv zeta. rewrite Hd, Hs.
        reflexivity.
  - split.
    + intro Hnone. rewrite Hrun.
      rewrite rebaseAndMove_none by (rewrite Hoc; exact Hnone).
      rewrite (dragCalls_none f n Hnone).
      eexists. split; [reflexivity|]. intros Hd Hs.
      cbn [w_fingering ipos py set_rypos setPos setOffsetChanged setAutoplace].
      apply qLt_true_iff in Hd.
      unfold belowSkylineYd, belowClamp. cbv zeta. rewrite Hd, Hs.
      cbn [andb]. fold chord. rewrite Hy.
      split; intro Hdiff.
      * apply qLt_false_iff in Hdiff. rewrite Hdiff. lra.
      * apply qLt_true_iff in Hdiff. rewrite Hdiff. lra.
    + intros Hoc' [Hf|Hstaff]; [discriminate Hf|].
      rewrite Hrun. unfold rebaseAndMove. cbv zeta.
      rewrite Hoc, (Hdrag Hoc'), Hsp, Hst. unfold inStaffArg.
      destruct (staff f) as [st|]; [|exfalso; apply Hstaff; reflexivity].
      rewrite (dragCalls_dragged f n Hoc' Htight).
      eexists. eexists. eexists. split; [reflexivity|].
      split.
      * cbn [w_fingering ipos py set_rypos setPos setOffsetChanged setAutoplace
               setUserProps]. rewrite Hy. lra.
      * intros Hd Hs. apply qLt_true_iff in Hd.
        unfold belowSkylineYd, belowClamp. cbv zeta. rewrite Hd, Hs.
        reflexivity.
Qed.

(** C8.  In the non-tight below branch, after a user move, the [inStaff]
    argument that [rebaseMinDistance] receives is
    [r.top() + rebase < staff()->height()], with [r] the bounding box in
    system coordinates computed before the rebase: [above] is false there,
    so the repeated conditional selects its below side. *)
Theorem layout_below_inStaff (w : World) (n : Note) (st : Staff) :
  let f := w_fingering w in
  let h := atChordBranch f n in
  let ss := sys_staff (w_system w) (ch_vStaffIdx (n_chord n)) in
  let r := bboxInSystem n h in
  let rebase := rebaseOf f n in
  tabSuppressed f = false -> autoplace f = true -> note f = Some n ->
  layoutType f = CHORD -> layoutTight f n = false ->
  placeAbove f = false -> offsetChanged f <> NONE -> staff f = Some st ->
  exists f' md yd inStaff,
    layout_run w
    = Some (mkWorld f' (w_system w),
            [CallTextBaseLayout; CallRebaseOffset true;
             CallMinDistance (south (skyline ss)) (belowSk n h);
             CallRebaseMinDistance md yd (spatium f) rebase false inStaff])
    /\ (inStaff = true <-> top r + rebase < st_height st).
Proof.
  intros f h ss r rebase Htab Ha Hn Hty Htight Hbelow Hoc Hst.
  pose proof (layout_run_chord w n Htab Ha Hn Hty Htight) as Hrun.
  cbv zeta in Hrun. fold f h ss in Hrun. rewrite Hbelow in Hrun.
  destruct (atChordBranch_frame f n) as (_ & Hsp & Hstaff & _ & Hoc' & _).
  cbv zeta in Hsp, Hstaff, Hoc'. fold h in Hsp, Hstaff, Hoc'.
  rewrite Hrun. unfold layoutBelow, rebaseAndMove. cbv zeta.
  rewrite Hoc', Hstaff, Hst, Hsp.
  assert (E : negb (OffsetChange_eqb (offsetChanged f) NONE) = true).
  { destruct (offsetChanged f); try reflexivity. exfalso. apply Hoc. reflexivity. }
  rewrite E. unfold inStaffArg.
  rewrite (dragCalls_dragged f n Hoc Htight).
  fold r rebase.
  eexists. eexists. eexists. exists (qLt (top r + rebase) (st_height st)).
  split; [reflexivity | apply qLt_true_iff].
Qed.

Lemma layoutAutoplace_note_type (sys : System) (n : Note) (f : Fingering) :
  layoutType f = NOTE ->
  layoutAutoplace sys n (afterText f)
  = let g := setAutoplace
               (snd (fst (rebaseAfterDrag (layoutTight f n) (afterText f)))) false in
    Some (setAutoplace
            (if TextStyleType_eqb (textStyleType f) LH_GUITAR_FINGERING
             then layoutLeftOfNote n g else g) true,
          dragCalls f n ++ []).
Proof.
  intro Ht. unfold layoutAutoplace. cbv zeta.
  rewrite layoutTight_afterText.
  destruct (rebaseAfterDrag_frame (layoutTight f n) (afterText f)) as [E _].
  cbv zeta in E.
  assert (E' : textStyleType
                 (setAutoplace
                    (snd (fst (rebaseAfterDrag (layoutTight f n) (afterText f))))
                    false) = textStyleType f) by exact E.
  unfold layoutType in *. rewrite E'.
  destruct (textStyleType f); try discriminate; reflexivity.
Qed.

(** C9, as amended.  For a left-hand guitar fingering that is not hidden on a
    tablature staff, with autoplace enabled and an anchor note, the layout
    type is NOTE, [layout] makes no skyline query, and the fingering moves
    left from its text position: by the left extent of the note's shape when
    that exceeds the note's x, by the note's x otherwise.  The vertical
    position stays zero. *)
Theorem layout_left_of_note (w : World) (n : Note) :
  let f := w_fingering w in
  let x0 := px (fst (TextBase_layout (textStyleType f) (plainText f) (spatium f))) in
  tabSuppressed f = false -> autoplace f = true -> note f = Some n ->
  textStyleType f = LH_GUITAR_FINGERING ->
  layoutType f = NOTE
  /\ exists f',
       layout_run w
       = Some (mkWorld f' (w_system w), CallTextBaseLayout :: dragCalls f n)
       /\ (forall c, In c (dragCalls f n) -> c = CallRebaseOffset true)
       /\ (n_x n < n_shape_left n -> px (ipos f') = x0 - n_shape_left n)
       /\ (n_shape_left n <= n_x n -> px (ipos f') = x0 - n_x n)
       /\ py (ipos f') = 0.
Proof.
  intros f x0 Htab Ha Hn Hst.
  assert (Hty : layoutType f = NOTE) by (unfold layoutType; rewrite Hst; reflexivity).
  split; [exact Hty|].
  rewrite (layout_run_autoplace w n Htab Ha Hn).
  rewrite (layoutAutoplace_note_type (w_system w) n (w_fingering w) Hty).
  fold f. cbv zeta. rewrite Hst. cbn [TextStyleType_eqb]. rewrite app_nil_r.
  set (g := snd (fst (rebaseAfterDrag (layoutTight f n) (afterText f)))).
  destruct (rebaseAfterDrag_frame (layoutTight f n) (afterText f))
    as (_ & _ & _ & _ & _ & _ & _ & _ & _ & Hip & _).
  cbv zeta in Hip. fold g in Hip.
  assert (Hx : px (ipos (setAutoplace g false)) = x0) by (cbn; rewrite Hip; reflexivity).
  assert (Hy : py (ipos (setAutoplace g false)) = 0) by (cbn; rewrite Hip; reflexivity).
  eexists. split; [reflexivity|]. split.
  - unfold dragCalls, rebaseAfterDrag. cbv zeta.
    destruct (negb (OffsetChange_eqb (offsetChanged (afterText f)) NONE)
              && negb (layoutTight (afterText f) n)); cbn [snd]; intros c Hc.
    + destruct Hc as [<-|[]]. reflexivity.
    + destruct Hc.
  - cbn [w_fingering ipos setOffsetChanged setAutoplace].
    unfold layoutLeftOfNote. cbv zeta.
    destruct (qLt 0 (n_shape_left n - n_x n)) eqn:E.
    + apply qLt_true_iff in E.
      cbn [ipos px py set_rxpos setPos]. rewrite Hx, Hy.
      repeat split; try reflexivity. intro Hle. exfalso. lra.
    + apply qLt_false_iff in E.
      cbn [ipos px py set_rxpos setPos]. rewrite Hx, Hy.
      repeat split; try reflexivity. intro Hlt. exfalso. lra.
Qed.

(** *** Results of the autoplace branch *)

Lemma rebaseAndMove_returns (r : RectF) (md yd rebase : qreal) (above : bool)
    (c : Call) (h : Fingering) :
  offsetChanged h = NONE \/ above = true \/ staff h <> None ->
  exists res, rebaseAndMove r md yd rebase above c h = Some res.
Proof.
  intro H. unfold rebaseAndMove.
  destruct (negb (OffsetChange_eqb (offsetChanged h) NONE)) eqn:E.
  - destruct H as [H|[H|H]].
    + rewrite H in E. discriminate.
    + rewrite H. cbn [inStaffArg]. eexists. reflexivity.
    + unfold inStaffArg. destruct above; [eexists; reflexivity|].
      destruct (staff h); [eexists; reflexivity|]. exfalso. apply H. reflexivity.
  - eexists. reflexivity.
Qed.

Lemma layoutAutoplace_autoplace (sys : System) (n : Note) (g g' : Fingering)
    (tr : list Call) :
  layoutAutoplace sys n g = Some (g', tr) -> autoplace g' = true.
Proof.
  unfold layoutAutoplace. cbv zeta.
  match goal with
  | |- match ?X with _ => _ end = _ -> _ => destruct X as [[h tr']|]
  end; [|discriminate].
  intro H. injection H as <- _. reflexivity.
Qed.

Lemma layout_run_system (w w' : World) (tr : list Call) :
  layout_run w = Some (w', tr) -> w_system w' = w_system w.
Proof.
  unfold layout_run. cbv zeta.
  destruct (tabSuppressed (w_fingering w)).
  - intro H. injection H as <- _. reflexivity.
  - match goal with
    | |- match ?X with _ => _ end = _ -> _ => destruct X as [[h tr']|]
    end; [|discriminate].
    intro H. injection H as <- _. reflexivity.
Qed.

Lemma layoutNoAutoplace_frame (f : Fingering) :
  autoplace (fst (layoutNoAutoplace f)) = autoplace f.
Proof.
  unfold layoutNoAutoplace.
  destruct (negb (OffsetChange_eqb (offsetChanged f) NONE)); reflexivity.
Qed.

Lemma layout_run_flags (w w' : World) (tr : list Call) :
  layout_run w = Some (w', tr) ->
  (tabSuppressed (w_fingering w) = false -> offsetChanged (w_fingering w') = NONE)
  /\ (tabSuppressed (w_fingering w) = true ->
      offsetChanged (w_fingering w') = offsetChanged (w_fingering w))
  /\ autoplace (w_fingering w') = autoplace (w_fingering w).
Proof.
  intro Hrun.
  destruct (tabSuppressed (w_fingering w)) eqn:Htab.
  - rewrite (layout_run_tab w Htab) in Hrun. injection Hrun as <- _.
    repeat split; try reflexivity. discriminate.
  - destruct (autoplace (w_fingering w)) eqn:Ha.
    + destruct (note (w_fingering w)) as [n|] eqn:Hn.
      * rewrite (layout_run_autoplace w n Htab Ha Hn) in Hrun.
        destruct (layoutAutoplace (w_system w) n (afterText (w_fingering w)))
          as [[g tr']|] eqn:E; [|discriminate].
        injection Hrun as <- _.
        repeat split; try reflexivity; try discriminate.
        cbn [w_fingering autoplace setOffsetChanged].
        exact (layoutAutoplace_autoplace _ _ _ _ _ E).
      * rewrite (layout_run_plain w Htab (or_intror Hn)) in Hrun.
        injection Hrun as <- _.
        repeat split; try reflexivity; try discriminate.
        cbn [w_fingering autoplace setOffsetChanged].
        rewrite layoutNoAutoplace_frame. exact Ha.
    + rewrite (layout_run_plain w Htab (or_introl Ha)) in Hrun.
      injection Hrun as <- _.
      repeat split; try reflexivity; try discriminate.
      cbn [w_fingering autoplace setOffsetChanged].
      rewrite layoutNoAutoplace_frame. exact Ha.
Qed.

(** Closes a goal [exists res, match rebaseAndMove ... with ... end = Some res]
    once [tac] shows that the rebase step returns. *)
Ltac returns_by tac :=
  match goal with
  | |- exists res,
        match rebaseAndMove ?r ?md ?yd ?rb ?ab ?c ?h with _ => _ end = Some res =>
      let E := fresh "E" in
      destruct (rebaseAndMove_returns r md yd rb ab c h) as [[? ?] E];
      [ tac | rewrite E; eexists; reflexivity ]
  end.

Lemma layoutAutoplace_returns (sys : System) (n : Note) (f : Fingering) :
  offsetChanged f = NONE \/ placeAbove f = true \/ staff f <> None ->
  exists res, layoutAutoplace sys n (afterText f) = Some res.
Proof.
  intro H.
  destruct (layoutType f) eqn:Hty.
  - rewrite (layoutAutoplace_chord sys n f Hty).
    unfold layoutChord. cbv zeta.
    set (g1 := setAutoplace
                 (snd (fst (rebaseAfterDrag (layoutTight f n) (afterText f)))) false).
    destruct (rebaseAfterDrag_frame (layoutTight f n) (afterText f))
      as (_ & _ & _ & _ & _ & F6 & _ & F8 & F9 & _).
    cbv zeta in F6, F8, F9.
    destruct (centreOnHead_frame n (n_bboxRightPos n) g1)
      as (_ & _ & _ & _ & _ & E6 & _ & E8 & E9 & _).
    cbv zeta in E6, E8, E9.
    assert (Hp : placeAbove g1 = placeAbove f).
    { unfold placeAbove, g1. cbn [placement setAutoplace]. rewrite F8. reflexivity. }
    assert (H' : offsetChanged (centreOnHead n (n_bboxRightPos n) g1) = NONE
                 \/ placeAbove f = true
                 \/ staff (centreOnHead n (n_bboxRightPos n) g1) <> None).
    { rewrite E9, E6. unfold g1. cbn [offsetChanged staff setAutoplace].
      rewrite F9, F6. exact H. }
    rewrite Hp.
    destruct (placeAbove f) eqn:Hab; destruct (layoutTight f n);
      try (eexists; reflexivity).
    + unfold layoutAbove. cbv zeta. returns_by ltac:(right; left; reflexivity).
    + unfold layoutBelow. cbv zeta.
      returns_by ltac:(destruct H' as [H'|[H'|H']];
                       [left; exact H' | discriminate | right; right; exact H']).
  - rewrite (layoutAutoplace_note_type sys n f Hty). eexists. reflexivity.
Qed.

Lemma layout_run_returns (w : World) :
  let f := w_fingering w in
  offsetChanged f = NONE \/ placeAbove f = true \/ staff f <> None ->
  exists w' tr, layout_run w = Some (w', tr).
Proof.
  intros f H.
  destruct (tabSuppressed f) eqn:Htab.
  - rewrite (layout_run_tab w Htab). eexists. eexists. reflexivity.
  - destruct (autoplace f) eqn:Ha.
    + destruct (note f) as [n|] eqn:Hn.
      * rewrite (layout_run_autoplace w n Htab Ha Hn).
        destruct (layoutAutoplace_returns (w_system w) n f H) as [[g tr] E].
        fold f. rewrite E. eexists. eexists. reflexivity.
      * rewrite (layout_run_plain w Htab (or_intror Hn)).
        eexists. eexists. reflexivity.
    + rewrite (layout_run_plain w Htab (or_introl Ha)).
      eexists. eexists. reflexivity.
Qed.

Lemma centreOnHead_props (n : Note) (hw : qreal) (f : Fingering) :
  props (centreOnHead n hw f) = props f
  /\ offsetChanged (centreOnHead n hw f) = offsetChanged f.
Proof. unfold centreOnHead. destruct (n_mirror n); split; reflexivity. Qed.

Lemma layoutAutoplace_props (sys : System) (n : Note) (g g' : Fingering)
    (tr : list Call) :
  offsetChanged g = NONE ->
  layoutAutoplace sys n g = Some (g', tr) -> props g' = props g.
Proof.
  intros Hoc. unfold layoutAutoplace. cbv zeta.
  rewrite (rebaseAfterDrag_none _ g Hoc). cbn [fst snd].
  destruct (layoutType (setAutoplace g false)).
  - unfold layoutChord. cbv zeta.
    destruct (centreOnHead_props n (n_bboxRightPos n) (setAutoplace g false))
      as [Hp Ho].
    set (h := centreOnHead n (n_bboxRightPos n) (setAutoplace g false)) in *.
    change (props (setAutoplace g false)) with (props g) in Hp.
    change (offsetChanged (setAutoplace g false)) with (offsetChanged g) in Ho.
    rewrite Hoc in Ho.
    destruct (placeAbove (setAutoplace g false)); destruct (layoutTight g n).
    + destruct (ch_stem (n_chord n)); intro H; injection H as <- _; exact Hp.
    + unfold layoutAbove. cbv zeta. rewrite rebaseAndMove_none by exact Ho.
      intro H; injection H as <- _; exact Hp.
    + destruct (ch_stem (n_chord n)); intro H; injection H as <- _; exact Hp.
    + unfold layoutBelow. cbv zeta. rewrite rebaseAndMove_none by exact Ho.
      intro H; injection H as <- _; exact Hp.
  - destruct (TextStyleType_eqb (textStyleType (setAutoplace g false))
                LH_GUITAR_FINGERING).
    + unfold layoutLeftOfNote. cbv zeta.
      destruct (qLt 0 (n_shape_left n - n_x n));
        intro H; injection H as <- _; reflexivity.
    + intro H; injection H as <- _; reflexivity.
Qed.

Lemma afterText_ext (a b : Fingering) :
  props a = props b -> autoplace a = autoplace b ->
  offsetChanged a = offsetChanged b -> afterText a = afterText b.
Proof.
  destruct a, b. unfold props. cbn. intros H Ha Ho.
  injection H as -> -> -> -> -> -> -> -> -> ->. subst. reflexivity.
Qed.

Lemma tabSuppressed_ext (a b : Fingering) :
  props a = props b -> tabSuppressed a = tabSuppressed b.
Proof.
  destruct a, b. unfold props. cbn. intros H.
  injection H as -> -> -> -> -> -> -> -> -> ->. reflexivity.
Qed.

Lemma layout_run_ext (a b : Fingering) (sys : System) :
  tabSuppressed a = false -> tabSuppressed b = false ->
  afterText a = afterText b ->
  layout_run (mkWorld a sys) = layout_run (mkWorld b sys).
Proof.
  intros Ha Hb E. unfold layout_run. cbn [w_fingering w_system].
  rewrite Ha, Hb. cbv zeta.
  change (set_rypos (textBaseLayout a) 0) with (afterText a).
  change (set_rypos (textBaseLayout b) 0) with (afterText b).
  rewrite E. reflexivity.
Qed.

Lemma layout_run_props (w w' : World) (tr : list Call) :
  offsetChanged (w_fingering w) = NONE ->
  layout_run w = Some (w', tr) ->
  props (w_fingering w') = props (w_fingering w).
Proof.
  intros Hoc Hrun.
  destruct (tabSuppressed (w_fingering w)) eqn:Htab.
  - rewrite (layout_run_tab w Htab) in Hrun. injection Hrun as <- _. reflexivity.
  - assert (Hplain :
      layout_run w
      = Some (mkWorld
                (setOffsetChanged
                   (fst (layoutNoAutoplace (afterText (w_fingering w)))) false)
                (w_system w),
              CallTextBaseLayout
                :: snd (layoutNoAutoplace (afterText (w_fingering w)))) ->
      props (w_fingering w') = props (w_fingering w)).
    { intro E. rewrite E in Hrun. injection Hrun as <- _.
      unfold layoutNoAutoplace.
      change (offsetChanged (afterText (w_fingering w)))
        with (offsetChanged (w_fingering w)).
      rewrite Hoc. reflexivity. }
    destruct (autoplace (w_fingering w)) eqn:Ha.
    + destruct (note (w_fingering w)) as [n|] eqn:Hn.
      * rewrite (layout_run_autoplace w n Htab Ha Hn) in Hrun.
        destruct (layoutAutoplace (w_system w) n (afterText (w_fingering w)))
          as [[g tr']|] eqn:E; [|discriminate].
        injection Hrun as <- _.
        change (props g = props (afterText (w_fingering w))).
        exact (layoutAutoplace_props _ _ (afterText (w_fingering w)) _ _ Hoc E).
      * apply Hplain. exact (layout_run_plain w Htab (or_intror Hn)).
    + apply Hplain. exact (layout_run_plain w Htab (or_introl Ha)).
Qed.

(** C7.  Without a pending user move, and with the score context and the
    skyline untouched in between, a second [layout] leaves the fingering
    where the first one put it: same position, and in fact the same state. *)
Theorem layout_twice (w : World) :
  offsetChanged (w_fingering w) = NONE ->
  exists w1 w2,
    layout w = Some w1 /\ layout w1 = Some w2
    /\ ipos (w_fingering w2) = ipos (w_fingering w1)
    /\ pos (w_fingering w2) = pos (w_fingering w1)
    /\ w2 = w1.
Proof.
  intro Hoc.
  destruct (layout_run_returns w (or_introl Hoc)) as (w1 & tr & Hrun).
  assert (H2 : layout_run w1 = Some (w1, tr)).
  { pose proof (layout_run_props w w1 tr Hoc Hrun) as Hp.
    pose proof (layout_run_system w w1 tr Hrun) as Hs.
    destruct (layout_run_flags w w1 tr Hrun) as (Hf1 & Hf2 & Hf3).
    destruct (tabSuppressed (w_fingering w)) eqn:Htab.
    - rewrite (layout_run_tab w Htab) in Hrun. injection Hrun as <- <-.
      rewrite layout_run_tab by exact Htab. reflexivity.
    - assert (Ho : offsetChanged (w_fingering w1) = offsetChanged (w_fingering w))
        by (rewrite Hoc; apply Hf1; reflexivity).
      destruct w as [f sys], w1 as [f1 sys1]. cbn [w_fingering w_system] in *.
      subst sys1. rewrite <- Hrun.
      apply layout_run_ext.
      + rewrite (tabSuppressed_ext f1 f Hp). exact Htab.
      + exact Htab.
      + exact (afterText_ext f1 f Hp Hf3 Ho). }
  exists w1, w1. unfold layout. rewrite Hrun, H2. cbn [option_map fst].
  repeat split; reflexivity.
Qed.

(** C10.  [layout] returns whenever the fingering has a staff.  When it
    returns past the tablature test, [offsetChanged] is NONE; when it returns
    at the tablature test, [offsetChanged] is untouched; and in every case
    the autoplace flag is what it was. *)
Theorem layout_flags (w : World) :
  let f := w_fingering w in
  (staff f <> None -> exists w', layout w = Some w')
  /\ (forall w',
        layout w = Some w' ->
        (tabSuppressed f = false -> offsetChanged (w_fingering w') = NONE)
        /\ (tabSuppressed f = true ->
            offsetChanged (w_fingering w') = offsetChanged f)
        /\ autoplace (w_fingering w') = autoplace f).
Proof.
  intro f. split.
  - intro Hst.
    destruct (layout_run_returns w (or_intror (or_intror Hst))) as (w' & tr & E).
    exists w'. unfold layout. rewrite E. reflexivity.
  - intros w' Hl. unfold layout in Hl.
    destruct (layout_run w) as [[w1 tr]|] eqn:E; [|discriminate].
    injection Hl as <-. exact (layout_run_flags w w1 tr E).
Qed.

(** C2, as amended.  With autoplace enabled and an anchor note, [layout] reads
    the staff skyline and leaves it as it found it, for every staff of the
    system; it finishes with the autoplace flag set again, which puts the
    fingering back into the shape of its chord. *)
Theorem layout_keeps_skyline (w w' : World) (n : Note) :
  autoplace (w_fingering w) = true -> note (w_fingering w) = Some n ->
  layout w = Some w' ->
  (forall i, skyline (sys_staff (w_system w') i)
             = skyline (sys_staff (w_system w) i))
  /\ autoplace (w_fingering w') = true.
Proof.
  intros Ha Hn Hl. unfold layout in Hl.
  destruct (layout_run w) as [[w1 tr]|] eqn:E; [|discriminate].
  injection Hl as <-. split.
  - intro i. rewrite (layout_run_system w w1 tr E). reflexivity.
  - destruct (layout_run_flags w w1 tr E) as (_ & _ & H). rewrite H. exact Ha.
Qed.

(** C6.  Without an anchor note [calculatePlacement] is Above and
    [layout] returns; the only calls it makes are the text layout and the
    horizontal offset rebase, the result is the same on every system, and
    past the tablature test the fingering sits where the text layout put it,
    with [rypos()] zero. *)
Theorem layout_without_note (w : World) :
  let f := w_fingering w in
  let t := TextBase_layout (textStyleType f) (plainText f) (spatium f) in
  note f = None ->
  calculatePlacement f = ABOVE
  /\ exists f' tr,
       layout_run w = Some (mkWorld f' (w_system w), tr)
       /\ (forall c, In c tr -> c = CallTextBaseLayout \/ c = CallRebaseOffset false)
       /\ (forall sys, layout_run (mkWorld f sys) = Some (mkWorld f' sys, tr))
       /\ (tabSuppressed f = false ->
           ipos f' = mkPointF (px (fst t)) 0 /\ bbox f' = snd t).
Proof.
  intros f t Hn. split.
  - unfold calculatePlacement. fold f. rewrite Hn. reflexivity.
  - destruct (tabSuppressed f) eqn:Htab.
    + exists (setbbox f RectF_null), [].
      split; [exact (layout_run_tab w Htab)|].
      split; [intros c []|].
      split; [|discriminate].
      intro sys. exact (layout_run_tab (mkWorld f sys) Htab).
    + exists (setOffsetChanged (fst (layoutNoAutoplace (afterText f))) false),
             (CallTextBaseLayout :: snd (layoutNoAutoplace (afterText f))).
      split; [exact (layout_run_plain w Htab (or_intror Hn))|].
      split.
      { intros c [<-|Hc]; [left; reflexivity|]. right.
        unfold layoutNoAutoplace in Hc.
        destruct (negb (OffsetChange_eqb (offsetChanged (afterText f)) NONE));
          cbn [snd] in Hc.
        - destruct Hc as [<-|[]]. reflexivity.
        - destruct Hc. }
      split.
      { intro sys. exact (layout_run_plain (mkWorld f sys) Htab (or_intror Hn)). }
      intros _. unfold layoutNoAutoplace.
      destruct (negb (OffsetChange_eqb (offsetChanged (afterText f)) NONE));
        split; reflexivity.
Qed.

End LayoutProperties.

(** ** The properties on the sample score *)

Section Examples.

#[local] Existing Instance Sample.collaborators.

(** The stem-up note with a second voice in its measure. *)
Lemma calculatePlacement_voices_witness :
  (calculatePlacement Sample.voiceFingering = ABOVE
   <-> ch_up (n_chord (Sample.voiceNote Sample.staff1)) = true)
  /\ (calculatePlacement Sample.voiceFingering = BELOW
      <-> ch_up (n_chord (Sample.voiceNote Sample.staff1)) = false).
Proof.
  apply (calculatePlacement_voices Sample.voiceFingering
           (Sample.voiceNote Sample.staff1)); reflexivity.
Defined.

(** C1 as stated fails: the stem-up note with a second voice gets Above, not
    Below. *)
Lemma calculatePlacement_stem_up_is_above :
  ~ (forall (f : Fingering) (n : Note),
       note f = Some n -> placementVoices (n_chord n) = true ->
       (calculatePlacement f = BELOW <-> ch_up (n_chord n) = true)
       /\ (calculatePlacement f = ABOVE <-> ch_up (n_chord n) = false)).
Proof.
  intro H.
  destruct (H Sample.voiceFingering (Sample.voiceNote Sample.staff1)
              eq_refl eq_refl) as [[_ Hb] _].
  specialize (Hb eq_refl). vm_compute in Hb. discriminate Hb.
Qed.

(** The lower staff of a two-staff part, single voice. *)
Lemma calculatePlacement_single_voice_witness :
  (calculatePlacement Sample.lastStaffFingering = BELOW
   <-> lastStaffOfSeveral (n_chord (Sample.soloNote Sample.lastOfTwo)))
  /\ (calculatePlacement Sample.lastStaffFingering = ABOVE
      <-> ~ lastStaffOfSeveral (n_chord (Sample.soloNote Sample.lastOfTwo))).
Proof.
  apply (calculatePlacement_single_voice Sample.lastStaffFingering
           (Sample.soloNote Sample.lastOfTwo)); reflexivity.
Defined.

(** A tight fingering above a stemmed note: 0.8 staff spaces to the left, 1.5
    staff spaces up. *)
Lemma layout_tight_witness :
  let w := Sample.tightWorld in
  let n := Sample.voiceNote Sample.staff1 in
  let f := w_fingering w in
  exists f',
    layout_run w = Some (mkWorld f' (w_system w), [CallTextBaseLayout])
    /\ px (ipos f') = centredX f n - 0.8 * spatium f
    /\ py (ipos f') = 0 - 1.5 * spatium f.
Proof.
  exact (proj2 (proj2 (layout_tight Sample.tightWorld
                         (Sample.voiceNote Sample.staff1)
                         eq_refl eq_refl eq_refl eq_refl)) eq_refl).
Defined.

(** A fingering above the chord under a far obstacle, which ends exactly the
    skyline push away; a fingering below the note head, which the staff
    pushes further; and a dragged fingering below the chord. *)
Lemma layout_skyline_push_witness :
  let n := Sample.soloNote Sample.staff1 in
  (exists f' q,
     layout_run Sample.aboveWorld
     = Some (mkWorld f' (w_system Sample.aboveWorld),
             [CallTextBaseLayout; CallMinDistance q (north Sample.busySkyline)])
     /\ SkylineLine_minDistance q (north Sample.busySkyline) == 22
     /\ py (ipos f') == - (22 + 0.25 * 7.5))
  /\ (exists f' q,
        layout_run SampleMore.nearBelowWorld
        = Some (mkWorld f' (w_system SampleMore.nearBelowWorld),
                [CallTextBaseLayout;
                 CallMinDistance (south SampleMore.headSkyline) q])
        /\ SkylineLine_minDistance (south SampleMore.headSkyline) q == 10
        /\ py (ipos f') == (10 + 0.25 * 7.5) + 8.125)
  /\ (let w := Sample.belowDraggedWorld in
      let f := w_fingering w in
      let h := atChordBranch f n in
      exists f' q yd' inStaff,
        layout_run w
        = Some (mkWorld f' (w_system w),
                [CallTextBaseLayout; CallRebaseOffset true;
                 CallMinDistance (south Sample.busySkyline) q;
                 CallRebaseMinDistance (minDistance h * spatium h) yd' (spatium f)
                   (rebaseOf f n) false inStaff])
        /\ SkylineLine_minDistance (south Sample.busySkyline) q == 29.5
        /\ yd' == 29.5 + 0.25 * 7.5
        /\ py (ipos f')
           == fst (rebaseMinDistance h (minDistance h * spatium h) yd' (spatium f)
                     (rebaseOf f n) false inStaff)).
Proof.
  intro n. split; [|split].
  - destruct (layout_skyline_push Sample.aboveWorld n
                eq_refl eq_refl eq_refl eq_refl eq_refl) as [Hnone _].
    destruct (Hnone eq_refl) as (f' & Hrun & Hpush).
    destruct (Hpush ltac:(vm_compute; reflexivity) eq_refl) as [Hexact _].
    exists f'. eexists. split; [exact Hrun|]. split.
    + vm_compute. reflexivity.
    + apply (Qeq_trans _ _ _ (Hexact ltac:(vm_compute; discriminate))).
      vm_compute. reflexivity.
  - destruct (layout_skyline_push SampleMore.nearBelowWorld n
                eq_refl eq_refl eq_refl eq_refl eq_refl) as [Hnone _].
    destruct (Hnone eq_refl) as (f' & Hrun & Hpush).
    destruct (Hpush ltac:(vm_compute; reflexivity) eq_refl) as [_ Hmore].
    exists f'. eexists. split; [exact Hrun|]. split.
    + vm_compute. reflexivity.
    + apply (Qeq_trans _ _ _ (Hmore ltac:(vm_compute; reflexivity))).
      vm_compute. reflexivity.
  - cbv zeta.
    destruct (layout_skyline_push Sample.belowDraggedWorld n
                eq_refl eq_refl eq_refl eq_refl eq_refl) as [_ Hdrag].
    assert (Hoc : offsetChanged (w_fingering Sample.belowDraggedWorld) <> NONE)
      by discriminate.
    assert (Hst : staff (w_fingering Sample.belowDraggedWorld) <> None)
      by discriminate.
    destruct (Hdrag Hoc (or_intror Hst)) as (f' & yd' & inStaff & Hrun & Hy & Hyd).
    exists f'. eexists. exists yd', inStaff. split; [exact Hrun|]. split.
    + vm_compute. reflexivity.
    + split; [|exact Hy].
      rewrite (Hyd ltac:(vm_compute; reflexivity) eq_refl). vm_compute. reflexivity.
Defined.

(** C4 as stated fails: under the top of its own note head, inside the staff,
    the fingering placed above is not pushed by the skyline distance and a
    quarter of its height only; the top staff line pushes it further. *)
Lemma layout_skyline_push_not_exact :
  ~ (forall (w : World) (n : Note),
       let f := w_fingering w in
       let chord := n_chord n in
       let seg := ch_segment chord in
       let h := atChordBranch f n in
       let above := placeAbove f in
       let r := translated (bbox h)
                  (m_pos (s_measure seg) +p s_pos seg +p ch_pos chord +p n_pos n
                   +p pos h) in
       let sky := skyline (sys_staff (w_system w) (ch_vStaffIdx chord)) in
       let d :=
         if above
         then SkylineLine_minDistance
                (SkylineLine_add (SkylineLine_new false) (rx r) (bottom r) (width r))
                (north sky)
         else SkylineLine_minDistance (south sky)
                (SkylineLine_add (SkylineLine_new true) (rx r) (top r) (width r)) in
       tabSuppressed f = false -> autoplace f = true -> note f = Some n ->
       layoutType f = CHORD -> layoutTight f n = false ->
       0 < d -> minDistanceStyled h = true ->
       exists f' tr,
         layout_run w = Some (mkWorld f' (w_system w), tr)
         /\ py (ipos f') == if above then 0 - (d + 0.25 * height h)
                            else 0 + (d + 0.25 * height h)).
Proof.
  intro H.
  destruct (H SampleMore.nearAboveWorld (Sample.soloNote Sample.staff1)
              eq_refl eq_refl eq_refl eq_refl eq_refl
              ltac:(vm_compute; reflexivity) eq_refl)
    as (f' & tr & Hrun & Hy).
  vm_compute in Hrun. injection Hrun as <- _.
  vm_compute in Hy. discriminate Hy.
Qed.

(** A dragged fingering below a single-voice chord. *)
Lemma layout_below_inStaff_witness :
  let w := Sample.belowDraggedWorld in
  let n := Sample.soloNote Sample.staff1 in
  let h := atChordBranch (w_fingering w) n in
  let ss := sys_staff (w_system w) (ch_vStaffIdx (n_chord n)) in
  exists f' md yd inStaff,
    layout_run w
    = Some (mkWorld f' (w_system w),
            [CallTextBaseLayout; CallRebaseOffset true;
             CallMinDistance (south (skyline ss)) (belowSk n h);
             CallRebaseMinDistance md yd (spatium (w_fingering w))
               (rebaseOf (w_fingering w) n) false inStaff])
    /\ (inStaff = true
        <-> top (bboxInSystem n h) + rebaseOf (w_fingering w) n
            < st_height Sample.staff1).
Proof.
  refine (layout_below_inStaff Sample.belowDraggedWorld
            (Sample.soloNote Sample.staff1) Sample.staff1
            eq_refl eq_refl eq_refl eq_refl eq_refl eq_refl _ eq_refl).
  discriminate.
Defined.

(** C3 as stated fails twice.  The tight fingering above a stemmed note ends
    0.8 staff spaces to the left of the centred position, not half a staff
    space; and a fingering that meets the four conditions on a tablature
    staff that hides fingering is not moved at all. *)
Lemma layout_tight_stem_offset :
  let n := Sample.voiceNote Sample.staff1 in
  (let w := Sample.tightWorld in
   let f := w_fingering w in
   layoutTight f n = true /\ placeAbove f = true
   /\ ch_stem (n_chord n) = Some Sample.aStem
   /\ exists f',
        layout_run w = Some (mkWorld f' (w_system w), [CallTextBaseLayout])
        /\ px (ipos f') == centredX f n - 0.8 * spatium f
        /\ ~ px (ipos f') == centredX f n - 0.5 * spatium f)
  /\ (let w := Sample.tightTabWorld in
      let f := w_fingering w in
      let m := Sample.voiceNote Sample.tabStaff in
      autoplace f = true /\ note f = Some m /\ layoutType f = CHORD
      /\ layoutTight f m = true
      /\ exists f',
           layout_run w = Some (mkWorld f' (w_system w), [])
           /\ ipos f' = ipos f).
Proof.
  split.
  - repeat (split; [reflexivity|]).
    eexists. split; [reflexivity|]. split.
    + vm_compute. reflexivity.
    + vm_compute. discriminate.
  - repeat (split; [reflexivity|]).
    eexists. split; reflexivity.
Qed.

(** A left-hand guitar fingering on a note whose shape starts left of it. *)
Lemma layout_left_of_note_witness :
  let w := Sample.leftHandWorld in
  let n := Sample.soloNote Sample.staff1 in
  let f := w_fingering w in
  let x0 := px (fst (TextBase_layout (textStyleType f) (plainText f) (spatium f))) in
  layoutType f = NOTE
  /\ exists f',
       layout_run w
       = Some (mkWorld f' (w_system w), CallTextBaseLayout :: dragCalls f n)
       /\ (forall c, In c (dragCalls f n) -> c = CallRebaseOffset true)
       /\ (n_x n < n_shape_left n -> px (ipos f') = x0 - n_shape_left n)
       /\ (n_shape_left n <= n_x n -> px (ipos f') = x0 - n_x n)
       /\ py (ipos f') = 0.
Proof.
  exact (layout_left_of_note Sample.leftHandWorld (Sample.soloNote Sample.staff1)
           eq_refl eq_refl eq_refl eq_refl).
Defined.

(** C9 as stated fails: on a tablature staff that hides fingering the
    left-hand fingering is not shifted. *)
Lemma layout_left_of_note_hidden_on_tab :
  ~ (forall (w : World) (n : Note),
       let f := w_fingering w in
       let x0 :=
         px (fst (TextBase_layout (textStyleType f) (plainText f) (spatium f))) in
       autoplace f = true -> note f = Some n ->
       textStyleType f = LH_GUITAR_FINGERING ->
       exists f' tr,
         layout_run w = Some (mkWorld f' (w_system w), tr)
         /\ (n_x n < n_shape_left n -> px (ipos f') == x0 - n_shape_left n)
         /\ (n_shape_left n <= n_x n -> px (ipos f') == x0 - n_x n)).
Proof.
  intro H.
  destruct (H Sample.leftHandTabWorld (Sample.soloNote Sample.tabStaff)
              eq_refl eq_refl eq_refl) as (f' & tr & Hrun & _ & Hx).
  vm_compute in Hrun. injection Hrun as <- _.
  assert (Hle : n_shape_left (Sample.soloNote Sample.tabStaff)
                <= n_x (Sample.soloNote Sample.tabStaff))
    by (vm_compute; discriminate).
  specialize (Hx Hle). vm_compute in Hx. discriminate Hx.
Qed.

(** Two layouts of the fingering under the obstacle. *)
Lemma layout_twice_witness :
  exists w1 w2,
    layout Sample.aboveWorld = Some w1 /\ layout w1 = Some w2
    /\ ipos (w_fingering w2) = ipos (w_fingering w1)
    /\ pos (w_fingering w2) = pos (w_fingering w1)
    /\ w2 = w1.
Proof. exact (layout_twice Sample.aboveWorld eq_refl). Defined.

(** A dragged fingering: the flag is cleared, autoplace is kept. *)
Lemma layout_flags_witness :
  let w := Sample.belowDraggedWorld in
  exists w',
    layout w = Some w'
    /\ offsetChanged (w_fingering w') = NONE
    /\ autoplace (w_fingering w') = autoplace (w_fingering w).
Proof.
  intro w. destruct (layout_flags w) as [Hret Hflags].
  destruct (Hret ltac:(discriminate)) as [w' E].
  exists w'. destruct (Hflags w' E) as (Hnone & _ & Hauto).
  split; [exact E|]. split; [apply Hnone; reflexivity | exact Hauto].
Defined.

(** A fingering on a system whose skylines are empty. *)
Lemma layout_keeps_skyline_witness :
  let w := Sample.quietWorld in
  exists w',
    layout w = Some w'
    /\ (forall i, skyline (sys_staff (w_system w') i)
                  = skyline (sys_staff (w_system w) i))
    /\ autoplace (w_fingering w') = true.
Proof.
  intro w. eexists. split; [reflexivity|].
  apply (layout_keeps_skyline w _ (Sample.soloNote Sample.staff1)); reflexivity.
Defined.

(** C2 as stated fails: on a system with empty skylines no edge of the
    fingering's bounding box is in the staff skyline after [layout]. *)
Lemma layout_does_not_insert :
  ~ (forall (w w' : World) (n : Note),
       autoplace (w_fingering w) = true -> note (w_fingering w) = Some n ->
       layout w = Some w' ->
       let i := ch_vStaffIdx (n_chord n) in
       insertedInSkyline (skyline (sys_staff (w_system w) i))
         (skyline (sys_staff (w_system w') i))
         (bboxInSystem n (w_fingering w'))).
Proof.
  intro H.
  destruct (H Sample.quietWorld _ (Sample.soloNote Sample.staff1)
              eq_refl eq_refl eq_refl) as [y [E|E]];
    apply (f_equal sl_seg) in E; vm_compute in E; discriminate E.
Qed.

(** A dragged fingering without a note. *)
Lemma layout_without_note_witness :
  let w := Sample.looseWorld in
  let f := w_fingering w in
  let t := TextBase_layout (textStyleType f) (plainText f) (spatium f) in
  calculatePlacement f = ABOVE
  /\ exists f' tr,
       layout_run w = Some (mkWorld f' (w_system w), tr)
       /\ (forall c, In c tr -> c = CallTextBaseLayout \/ c = CallRebaseOffset false)
       /\ (forall sys, layout_run (mkWorld f sys) = Some (mkWorld f' sys, tr))
       /\ (tabSuppressed f = false ->
           ipos f' = mkPointF (px (fst t)) 0 /\ bbox f' = snd t).
Proof. exact (layout_without_note Sample.looseWorld eq_refl). Defined.

End Examples.

(** * More properties of the layout engine *)

Section MoreLayoutProperties.

Context {C : Collaborators}.

(** *** Exact results of the paths that do not read the skyline *)

Lemma fingering_ext (a b : Fingering) :
  props a = props b -> autoplace a = autoplace b ->
  offsetChanged a = offsetChanged b -> ipos a = ipos b -> bbox a = bbox b ->
  a = b.
Proof.
  destruct a, b. unfold props. cbn. intros H Ha Ho Hi Hb.
  injection H as -> -> -> -> -> -> -> -> -> ->. subst. reflexivity.
Qed.

Lemma layoutNoAutoplace_calls (g : Fingering) :
  snd (layoutNoAutoplace g)
  = if negb (OffsetChange_eqb (offsetChanged g) NONE)
    then [CallRebaseOffset false] else [].
Proof.
  unfold layoutNoAutoplace.
  destruct (negb (OffsetChange_eqb (offsetChanged g) NONE)); reflexivity.
Qed.

Lemma layoutNoAutoplace_geometry (g : Fingering) :
  ipos (fst (layoutNoAutoplace g)) = ipos g
  /\ bbox (fst (layoutNoAutoplace g)) = bbox g
  /\ offsetChanged (fst (layoutNoAutoplace g)) = offsetChanged g.
Proof.
  unfold layoutNoAutoplace.
  destruct (negb (OffsetChange_eqb (offsetChanged g) NONE)); repeat split.
Qed.

Lemma dragCalls_eq (f : Fingering) (n : Note) :
  dragCalls f n
  = if negb (OffsetChange_eqb (offsetChanged f) NONE) && negb (layoutTight f n)
    then [CallRebaseOffset true] else [].
Proof.
  unfold dragCalls, rebaseAfterDrag. cbv zeta. rewrite layoutTight_afterText.
  change (offsetChanged (afterText f)) with (offsetChanged f).
  destruct (negb (OffsetChange_eqb (offsetChanged f) NONE) && negb (layoutTight f n));
    reflexivity.
Qed.

Lemma OffsetChange_eqb_NONE (oc : OffsetChange) :
  negb (OffsetChange_eqb oc NONE) = true <-> oc <> NONE.
Proof. destruct oc; cbn; split; intro H; congruence. Qed.

(** The result of the tight branches (lines 151-155 and 187-191). *)
Lemma layout_run_tight_eq (w : World) (n : Note) :
  let f := w_fingering w in
  tabSuppressed f = false -> autoplace f = true -> note f = Some n ->
  layoutType f = CHORD -> layoutTight f n = true ->
  exists f',
    layout_run w = Some (mkWorld f' (w_system w), [CallTextBaseLayout])
    /\ props f' = props f /\ autoplace f' = true /\ offsetChanged f' = NONE
    /\ bbox f' = bbox (afterText f)
    /\ px (ipos f')
       = match ch_stem (n_chord n) with
         | Some _ => if placeAbove f then centredX f n - 0.8 * spatium f
                     else centredX f n + 0.8 * spatium f
         | None => centredX f n
         end
    /\ py (ipos f') = if placeAbove f then 0 - 1.5 * spatium f
                      else 0 + 1.5 * spatium f.
Proof.
  intros f Htab Ha Hn Hty Htight.
  rewrite (layout_run_autoplace w n Htab Ha Hn).
  rewrite (layoutAutoplace_chord (w_system w) n (w_fingering w) Hty).
  fold f. unfold dragCalls, rebaseOf. cbv zeta.
  rewrite layoutTight_afterText, Htight, rebaseAfterDrag_tight.
  cbn [fst snd]. unfold layoutChord. cbv zeta.
  change (placeAbove (setAutoplace (afterText f) false)) with (placeAbove f).
  change (spatium (setAutoplace (afterText f) false)) with (spatium f).
  set (h := centreOnHead n (n_bboxRightPos n) (setAutoplace (afterText f) false)).
  assert (Ex : px (ipos h) = centredX f n).
  { unfold h, centredX, centreOnHead. destruct (n_mirror n); reflexivity. }
  destruct (centreOnHead_props n (n_bboxRightPos n) (setAutoplace (afterText f) false))
    as [Hp _]. fold h in Hp.
  change (props (setAutoplace (afterText f) false)) with (props f) in Hp.
  destruct (centreOnHead_frame n (n_bboxRightPos n) (setAutoplace (afterText f) false))
    as (_ & _ & _ & _ & _ & _ & _ & _ & _ & _ & _ & _ & Hb & Hy).
  cbv zeta in Hb, Hy. fold h in Hb, Hy.
  change (bbox (setAutoplace (afterText f) false)) with (bbox (afterText f)) in Hb.
  change (py (ipos (setAutoplace (afterText f) false))) with 0 in Hy.
  destruct (placeAbove f); destruct (ch_stem (n_chord n));
    eexists; (split; [reflexivity|]);
    cbn [ipos px py bbox autoplace offsetChanged w_fingering set_rypos set_rxpos
         setPos setOffsetChanged setAutoplace];
    rewrite ?Ex, ?Hy;
    (split; [exact Hp|]); repeat split; try reflexivity; exact Hb.
Qed.

(** *** The non-tight chord path *)

Lemma centreOnHead_x (n : Note) (hw : qreal) (g : Fingering) :
  px (ipos (centreOnHead n hw g))
  = (if n_mirror n then px (ipos g) - px (n_ipos n) else px (ipos g)) + hw * 0.5.
Proof. unfold centreOnHead. destruct (n_mirror n); reflexivity. Qed.

Lemma atChordBranch_x (f : Fingering) (n : Note) :
  px (ipos (atChordBranch f n)) = centredX f n.
Proof.
  unfold atChordBranch, centredX. cbv zeta. rewrite !centreOnHead_x.
  destruct (rebaseAfterDrag_frame (layoutTight (afterText f) n) (afterText f))
    as (_ & _ & _ & _ & _ & _ & _ & _ & _ & E & _).
  cbv zeta in E. cbn [ipos setAutoplace]. rewrite E. reflexivity.
Qed.

Lemma atChordBranch_props (f : Fingering) (n : Note) :
  offsetChanged f = NONE -> props (atChordBranch f n) = props f.
Proof.
  intro H. unfold atChordBranch. cbv zeta.
  rewrite (rebaseAfterDrag_none _ (afterText f) H). cbn [fst snd].
  destruct (centreOnHead_props n (n_bboxRightPos n) (setAutoplace (afterText f) false))
    as [E _].
  rewrite E. reflexivity.
Qed.

Lemma rebaseAndMove_shape (r : RectF) (md yd rebase : qreal) (above : bool)
    (c : Call) (h h' : Fingering) (tr : list Call) :
  rebaseAndMove r md yd rebase above c h = Some (h', tr) ->
  px (ipos h') = px (ipos h) /\ bbox h' = bbox h
  /\ ((offsetChanged h = NONE /\ tr = [c]
       /\ h' = set_rypos h (py (ipos h) + yd))
      \/ (offsetChanged h <> NONE
          /\ exists inStaff,
               tr = [c; CallRebaseMinDistance md yd (spatium h) rebase above
                          inStaff])).
Proof.
  unfold rebaseAndMove.
  destruct (negb (OffsetChange_eqb (offsetChanged h) NONE)) eqn:E.
  - apply OffsetChange_eqb_NONE in E.
    destruct (inStaffArg above r rebase (staff h)) as [b|]; [|discriminate].
    intro H. injection H as <- <-. repeat split. right.
    split; [exact E|]. exists b. reflexivity.
  - intro H. injection H as <- <-. repeat split. left.
    destruct (offsetChanged h); try discriminate. repeat split.
Qed.

(** The shape of every returning run of the non-tight chord path. *)
Lemma layout_run_skyline_shape (w w' : World) (tr : list Call) (n : Note) :
  let f := w_fingering w in
  let h := atChordBranch f n in
  let ss := sys_staff (w_system w) (ch_vStaffIdx (n_chord n)) in
  let md := minDistance h * spatium h in
  let yd := if placeAbove f
            then aboveClamp n md (aboveSkylineYd (aboveD ss n h) h) h
            else belowClamp n md (belowSkylineYd (belowD ss n h) h) h in
  tabSuppressed f = false -> autoplace f = true -> note f = Some n ->
  layoutType f = CHORD -> layoutTight f n = false ->
  layout_run w = Some (w', tr) ->
  px (ipos (w_fingering w')) = centredX f n
  /\ bbox (w_fingering w') = bbox (afterText f)
  /\ ((offsetChanged f = NONE
       /\ tr = [CallTextBaseLayout; skylineQuery (placeAbove f) ss n h]
       /\ py (ipos (w_fingering w')) = 0 + yd
       /\ props (w_fingering w') = props f)
      \/ (offsetChanged f <> NONE
          /\ exists inStaff,
               tr = [CallTextBaseLayout; CallRebaseOffset true;
                     skylineQuery (placeAbove f) ss n h;
                     CallRebaseMinDistance md yd (spatium f) (rebaseOf f n)
                       (placeAbove f) inStaff])).
Proof.
  intros f h ss md yd Htab Ha Hn Hty Htight Hrun.
  pose proof (layout_run_chord w n Htab Ha Hn Hty Htight) as E.
  cbv zeta in E. fold f h ss md in E. rewrite E in Hrun. clear E.
  destruct (atChordBranch_frame f n) as (_ & Hsp & _ & _ & Hoc & _ & Hb & Hy).
  cbv zeta in Hsp, Hoc, Hb, Hy. fold h in Hsp, Hoc, Hb, Hy.
  pose proof (atChordBranch_x f n) as Hx. fold h in Hx.
  assert (Hshape :
    forall c yd0,
      match rebaseAndMove (bboxInSystem n h) md yd0 (rebaseOf f n) (placeAbove f) c h
      with
      | Some (h', tr0) =>
          Some (mkWorld (setOffsetChanged (setAutoplace h' true) false) (w_system w),
                CallTextBaseLayout :: dragCalls f n ++ tr0)
      | None => None
      end = Some (w', tr) ->
      px (ipos (w_fingering w')) = centredX f n
      /\ bbox (w_fingering w') = bbox (afterText f)
      /\ ((offsetChanged f = NONE /\ tr = [CallTextBaseLayout; c]
           /\ py (ipos (w_fingering w')) = 0 + yd0
           /\ props (w_fingering w') = props f)
          \/ (offsetChanged f <> NONE
              /\ exists inStaff,
                   tr = [CallTextBaseLayout; CallRebaseOffset true; c;
                         CallRebaseMinDistance md yd0 (spatium f) (rebaseOf f n)
                           (placeAbove f) inStaff]))).
  { intros c yd0 H.
    destruct (rebaseAndMove (bboxInSystem n h) md yd0 (rebaseOf f n)
                (placeAbove f) c h) as [[h' tr0]|] eqn:Er; [|discriminate].
    injection H as <- <-.
    destruct (rebaseAndMove_shape _ _ _ _ _ _ _ _ _ Er) as (Hx' & Hb' & Hcase).
    cbn [w_fingering ipos bbox setOffsetChanged setAutoplace].
    rewrite Hx', Hx, Hb', Hb. split; [reflexivity|]. split; [reflexivity|].
    rewrite Hoc, Hsp in Hcase.
    destruct Hcase as [(Hnone & -> & ->)|(Hdrag & ins & ->)].
    - left. split; [exact Hnone|]. rewrite (dragCalls_none f n Hnone).
      split; [reflexivity|]. cbn [ipos py set_rypos setPos]. rewrite Hy.
      split; [reflexivity|].
      exact (atChordBranch_props f n Hnone).
    - right. split; [exact Hdrag|]. exists ins.
      rewrite (dragCalls_dragged f n Hdrag Htight). reflexivity. }
  unfold yd, skylineQuery.
  destruct (placeAbove f).
  - unfold layoutAbove in Hrun. cbv zeta in Hrun. exact (Hshape _ _ Hrun).
  - unfold layoutBelow in Hrun. cbv zeta in Hrun. exact (Hshape _ _ Hrun).
Qed.

(** The result of the note layout type (lines 223-232). *)
Lemma layout_run_note_type (w : World) (n : Note) :
  let f := w_fingering w in
  let g := setAutoplace
             (snd (fst (rebaseAfterDrag (layoutTight f n) (afterText f)))) false in
  tabSuppressed f = false -> autoplace f = true -> note f = Some n ->
  layoutType f = NOTE ->
  layout_run w
  = Some (mkWorld
            (setOffsetChanged
               (setAutoplace
                  (if TextStyleType_eqb (textStyleType f) LH_GUITAR_FINGERING
                   then layoutLeftOfNote n g else g) true) false)
            (w_system w),
          CallTextBaseLayout :: dragCalls f n).
Proof.
  intros f g Htab Ha Hn Hty.
  rewrite (layout_run_autoplace w n Htab Ha Hn).
  rewrite (layoutAutoplace_note_type (w_system w) n (w_fingering w) Hty).
  cbv zeta. rewrite app_nil_r. reflexivity.
Qed.

(** Every returning run takes one of five paths, each with its calls. *)
Lemma layout_run_paths (w w' : World) (tr : list Call) :
  let f := w_fingering w in
  layout_run w = Some (w', tr) ->
  (tabSuppressed f = true /\ tr = [])
  \/ (tabSuppressed f = false /\ (autoplace f = false \/ note f = None)
      /\ tr = CallTextBaseLayout
               :: (if negb (OffsetChange_eqb (offsetChanged f) NONE)
                   then [CallRebaseOffset false] else []))
  \/ (tabSuppressed f = false /\ autoplace f = true
      /\ exists n,
           note f = Some n
           /\ ((layoutType f = NOTE /\ tr = CallTextBaseLayout :: dragCalls f n)
               \/ (layoutType f = CHORD /\ layoutTight f n = true
                   /\ tr = [CallTextBaseLayout])
               \/ (layoutType f = CHORD /\ layoutTight f n = false
                   /\ exists q,
                        isSkylineCall q = true
                        /\ ((offsetChanged f = NONE
                             /\ tr = [CallTextBaseLayout; q])
                            \/ (offsetChanged f <> NONE
                                /\ exists r,
                                     isRebaseCall r = true
                                     /\ tr = [CallTextBaseLayout;
                                              CallRebaseOffset true; q; r]))))).
Proof.
  intros f Hrun.
  destruct (tabSuppressed f) eqn:Htab.
  - left. rewrite (layout_run_tab w Htab) in Hrun. injection Hrun as _ <-.
    split; reflexivity.
  - right.
    assert (Hplain : autoplace f = false \/ note f = None ->
              tr = CallTextBaseLayout
                     :: (if negb (OffsetChange_eqb (offsetChanged f) NONE)
                         then [CallRebaseOffset false] else [])).
    { intro H. rewrite (layout_run_plain w Htab H) in Hrun.
      injection Hrun as _ <-. rewrite layoutNoAutoplace_calls. reflexivity. }
    destruct (autoplace f) eqn:Ha;
      [|left; split; [reflexivity|]; split; [left; reflexivity|];
        apply Hplain; left; reflexivity].
    destruct (note f) as [n|] eqn:Hn;
      [|left; split; [reflexivity|]; split; [right; reflexivity|];
        apply Hplain; right; reflexivity].
    right. split; [reflexivity|]. split; [reflexivity|]. exists n.
    split; [reflexivity|].
    destruct (layoutType f) eqn:Hty.
    + right. destruct (layoutTight f n) eqn:Htight.
      * left. destruct (layout_run_tight_eq w n Htab Ha Hn Hty Htight)
          as (f' & E & _).
        rewrite E in Hrun. injection Hrun as _ <-. repeat split.
      * right. split; [reflexivity|]. split; [reflexivity|].
        destruct (layout_run_skyline_shape w w' tr n Htab Ha Hn Hty Htight Hrun)
          as (_ & _ & Hcase).
        cbv zeta in Hcase.
        exists (skylineQuery (placeAbove f)
                  (sys_staff (w_system w) (ch_vStaffIdx (n_chord n))) n
                  (atChordBranch f n)).
        split; [unfold skylineQuery; destruct (placeAbove f); reflexivity|].
        destruct Hcase as [(Hnone & -> & _)|(Hdrag & ins & ->)].
        -- left. split; [exact Hnone | reflexivity].
        -- right. split; [exact Hdrag|]. eexists. split; [|reflexivity].
           reflexivity.
    + left. split; [reflexivity|].
      rewrite (layout_run_note_type w n Htab Ha Hn Hty) in Hrun.
      injection Hrun as _ <-. reflexivity.
Qed.

(** *** Properties *)

(** X1.  With autoplace disabled [layout] does no collision avoidance, even
    on a note under obstacles: past the tablature test it returns with the
    fingering where the text layout put it and [rypos()] zero, having called
    only the text layout and, after a user move, [rebaseOffset(false)]. *)
Theorem layout_autoplace_off (w : World) :
  let f := w_fingering w in
  let t := TextBase_layout (textStyleType f) (plainText f) (spatium f) in
  tabSuppressed f = false -> autoplace f = false ->
  exists f',
    layout_run w
    = Some (mkWorld f' (w_system w),
            CallTextBaseLayout
              :: (if negb (OffsetChange_eqb (offsetChanged f) NONE)
                  then [CallRebaseOffset false] else []))
    /\ ipos f' = mkPointF (px (fst t)) 0 /\ bbox f' = snd t
    /\ autoplace f' = false.
Proof.
  intros f t Htab Ha.
  rewrite (layout_run_plain w Htab (or_introl Ha)).
  rewrite layoutNoAutoplace_calls.
  eexists. split; [reflexivity|].
  destruct (layoutNoAutoplace_geometry (afterText f)) as (Hi & Hb & _).
  cbn [ipos bbox autoplace setOffsetChanged]. fold f. rewrite Hi, Hb.
  rewrite layoutNoAutoplace_frame.
  repeat split. exact Ha.
Qed.

(** X2.  A fingering of the note layout type that is not a left-hand guitar
    fingering is not autoplaced: it stays where the text layout put it, with
    [rypos()] zero, and no skyline is queried; only the offset rebase of a
    pending user move is made. *)
Theorem layout_other_style (w : World) (n : Note) :
  let f := w_fingering w in
  let t := TextBase_layout (textStyleType f) (plainText f) (spatium f) in
  tabSuppressed f = false -> autoplace f = true -> note f = Some n ->
  layoutType f = NOTE -> textStyleType f <> LH_GUITAR_FINGERING ->
  exists f',
    layout_run w
    = Some (mkWorld f' (w_system w), CallTextBaseLayout :: dragCalls f n)
    /\ existsb isSkylineCall (CallTextBaseLayout :: dragCalls f n) = false
    /\ ipos f' = mkPointF (px (fst t)) 0 /\ bbox f' = snd t.
Proof.
  intros f t Htab Ha Hn Hty Hlh.
  rewrite (layout_run_note_type w n Htab Ha Hn Hty). fold f.
  assert (E : TextStyleType_eqb (textStyleType f) LH_GUITAR_FINGERING = false).
  { destruct (textStyleType f); try reflexivity. exfalso. apply Hlh. reflexivity. }
  rewrite E. eexists. split; [reflexivity|]. split.
  - rewrite dragCalls_eq.
    destruct (negb (OffsetChange_eqb (offsetChanged f) NONE)
              && negb (layoutTight f n)); reflexivity.
  - destruct (rebaseAfterDrag_frame (layoutTight f n) (afterText f))
      as (_ & _ & _ & _ & _ & _ & _ & _ & _ & Hi & Hb).
    cbv zeta in Hi, Hb.
    cbn [ipos bbox setOffsetChanged setAutoplace]. rewrite Hi, Hb.
    split; reflexivity.
Qed.

(** X3.  On the non-tight chord path the collision avoidance is vertical
    only: whatever the skyline, the placement and a pending user move, the
    fingering ends horizontally centred on the note head, at the text
    position (less the note's own x when the head is mirrored) plus half the
    head width, with the bounding box of the text layout. *)
Theorem layout_chord_centred (w w' : World) (tr : list Call) (n : Note) :
  let f := w_fingering w in
  let t := TextBase_layout (textStyleType f) (plainText f) (spatium f) in
  tabSuppressed f = false -> autoplace f = true -> note f = Some n ->
  layoutType f = CHORD -> layoutTight f n = false ->
  layout_run w = Some (w', tr) ->
  px (ipos (w_fingering w'))
  = (if n_mirror n then px (fst t) - px (n_ipos n) else px (fst t))
    + n_bboxRightPos n * 0.5
  /\ bbox (w_fingering w') = snd t.
Proof.
  intros f t Htab Ha Hn Hty Htight Hrun.
  destruct (layout_run_skyline_shape w w' tr n Htab Ha Hn Hty Htight Hrun)
    as (Hx & Hb & _).
  fold f in Hx, Hb. rewrite Hx, Hb. split; [apply centredX_eq | reflexivity].
Qed.

Lemma aboveClamp_le (n : Note) (md yd : qreal) (h : Fingering) :
  aboveClamp n md yd h <= yd.
Proof.
  unfold aboveClamp. cbv zeta.
  match goal with
  | |- context [qLt 0 ?x] => destruct (qLt 0 x) eqn:E
  end.
  - apply qLt_true_iff in E. lra.
  - lra.
Qed.

Lemma belowClamp_ge (n : Note) (md yd : qreal) (h : Fingering) :
  yd <= belowClamp n md yd h.
Proof.
  unfold belowClamp. cbv zeta.
  match goal with
  | |- context [qLt 0 ?x] => destruct (qLt 0 x) eqn:E
  end.
  - apply qLt_true_iff in E. lra.
  - lra.
Qed.

Lemma props_inv (a b : Fingering) :
  props a = props b ->
  spatium a = spatium b /\ minDistance a = minDistance b
  /\ minDistanceStyled a = minDistanceStyled b /\ offset a = offset b
  /\ placement a = placement b /\ textStyleType a = textStyleType b.
Proof.
  unfold props. intro H. injection H. intros. repeat split; assumption.
Qed.

(** The run of the non-tight chord path without a pending user move. *)
Lemma layout_run_skyline_settled (w : World) (n : Note) :
  let f := w_fingering w in
  let h := atChordBranch f n in
  let ss := sys_staff (w_system w) (ch_vStaffIdx (n_chord n)) in
  let md := minDistance f * spatium f in
  let yd := if placeAbove f
            then aboveClamp n md (aboveSkylineYd (aboveD ss n h) h) h
            else belowClamp n md (belowSkylineYd (belowD ss n h) h) h in
  tabSuppressed f = false -> autoplace f = true -> note f = Some n ->
  layoutType f = CHORD -> layoutTight f n = false -> offsetChanged f = NONE ->
  exists f',
    layout_run w
    = Some (mkWorld f' (w_system w),
            [CallTextBaseLayout; skylineQuery (placeAbove f) ss n h])
    /\ py (ipos f') = 0 + yd /\ bbox f' = bbox h /\ py (ipos h) = 0
    /\ height h
       = rh (snd (TextBase_layout (textStyleType f) (plainText f) (spatium f)))
    /\ minDistanceStyled h = minDistanceStyled f.
Proof.
  intros f h ss md yd Htab Ha Hn Hty Htight Hnone.
  destruct (layout_run_returns w (or_introl Hnone)) as (w' & tr & Hrun).
  destruct (layout_run_skyline_shape w w' tr n Htab Ha Hn Hty Htight Hrun)
    as (_ & Hb & Hcase).
  cbv zeta in Hcase. fold f h ss in Hcase, Hb.
  destruct Hcase as [(_ & Htr & Hy & _)|(Hdrag & _)]; [|contradiction].
  pose proof (layout_run_system w w' tr Hrun) as Hs.
  destruct (atChordBranch_frame f n) as (_ & _ & _ & _ & _ & _ & Hbh & Hyh).
  cbv zeta in Hbh, Hyh. fold h in Hbh, Hyh.
  pose proof (atChordBranch_props f n Hnone) as Hp. fold h in Hp.
  destruct (props_inv h f Hp) as (Hsp & Hmin & Hst & _).
  assert (Hmd : minDistance h * spatium h = md)
    by (unfold md; rewrite Hsp, Hmin; reflexivity).
  rewrite Hmd in Hy.
  exists (w_fingering w'). destruct w' as [f' sys']. cbn [w_fingering w_system] in *.
  subst sys' tr. split; [exact Hrun|]. split; [exact Hy|].
  split; [rewrite Hb, Hbh; reflexivity|]. split; [exact Hyh|].
  split; [unfold height; rewrite Hbh; reflexivity | exact Hst].
Qed.

(** X5.  Without a pending user move, when the skyline reports no collision
    (the distance is not positive) or MIN_DISTANCE is not styled, the
    non-tight chord path moves the fingering only as far as the structural
    edge asks: by the shortfall when there is one, and not at all when the
    fingering already clears the edge. *)
Theorem layout_no_collision (w : World) (n : Note) :
  let f := w_fingering w in
  let h := atChordBranch f n in
  let ss := sys_staff (w_system w) (ch_vStaffIdx (n_chord n)) in
  let md := minDistance f * spatium f in
  let d := skylineDistance (placeAbove f) ss n h in
  tabSuppressed f = false -> autoplace f = true -> note f = Some n ->
  layoutType f = CHORD -> layoutTight f n = false -> offsetChanged f = NONE ->
  d <= 0 \/ minDistanceStyled f = false ->
  exists f' tr,
    layout_run w = Some (mkWorld f' (w_system w), tr)
    /\ if placeAbove f
       then py (ipos f') == - Qmax 0 (shortfallAbove n md 0 h)
            /\ (shortfallAbove n md 0 h <= 0 -> py (ipos f') == 0)
       else py (ipos f') == Qmax 0 (shortfallBelow n md 0 h)
            /\ (shortfallBelow n md 0 h <= 0 -> py (ipos f') == 0).
Proof.
  intros f h ss md d Htab Ha Hn Hty Htight Hnone Hfree.
  destruct (layout_run_skyline_settled w n Htab Ha Hn Hty Htight Hnone)
    as (f' & Hrun & Hy & _ & Hyh & _ & Hst).
  fold f h ss md in Hrun, Hy, Hyh, Hst.
  exists f'. eexists. split; [exact Hrun|].
  assert (Hoff : qLt 0 d && minDistanceStyled h = false).
  { rewrite Hst. destruct Hfree as [Hd|Hs].
    - apply qLt_false_iff in Hd. rewrite Hd. reflexivity.
    - rewrite Hs. apply andb_false_r. }
  unfold d, skylineDistance in Hoff. rewrite Hy.
  destruct (placeAbove f).
  - unfold aboveSkylineYd. cbv zeta. rewrite Hoff.
    pose proof (aboveClamp_push n md 0 0 h Hyh ltac:(lra)) as Hc.
    split; [lra|]. intro Hs. rewrite (Qmax_0_nonpos _ Hs) in Hc. lra.
  - unfold belowSkylineYd. cbv zeta. rewrite Hoff.
    pose proof (belowClamp_push n md 0 0 h Hyh ltac:(lra)) as Hc.
    split; [lra|]. intro Hs. rewrite (Qmax_0_nonpos _ Hs) in Hc. lra.
Qed.

(** X6.  Without a pending user move, and for a staff space and a text
    height that are not negative, the chord layout type moves a fingering
    only away from the note: placed above it never ends below [y = 0],
    placed below it never ends above it, in tight mode and out of it. *)
Theorem layout_direction (w : World) (n : Note) :
  let f := w_fingering w in
  let t := TextBase_layout (textStyleType f) (plainText f) (spatium f) in
  tabSuppressed f = false -> autoplace f = true -> note f = Some n ->
  layoutType f = CHORD -> offsetChanged f = NONE ->
  0 <= spatium f -> 0 <= rh (snd t) ->
  exists f' tr,
    layout_run w = Some (mkWorld f' (w_system w), tr)
    /\ if placeAbove f then py (ipos f') <= 0 else 0 <= py (ipos f').
Proof.
  intros f t Htab Ha Hn Hty Hnone Hsp Hh.
  destruct (layoutTight f n) eqn:Htight.
  - destruct (layout_run_tight_eq w n Htab Ha Hn Hty Htight)
      as (f' & Hrun & _ & _ & _ & _ & _ & Hy).
    fold f in Hy. exists f'. eexists. split; [exact Hrun|]. rewrite Hy.
    destruct (placeAbove f); lra.
  - destruct (layout_run_skyline_settled w n Htab Ha Hn Hty Htight Hnone)
      as (f' & Hrun & Hy & _ & Hyh & Hht & _).
    fold f t in Hy, Hyh, Hht.
    exists f'. eexists. split; [exact Hrun|]. rewrite Hy.
    destruct (placeAbove f).
    + match goal with
      | |- context [aboveClamp n ?md ?yd ?h] =>
          pose proof (aboveClamp_le n md yd h) as Hc;
          assert (Hyd : yd <= 0)
      end.
      { unfold aboveSkylineYd. cbv zeta. rewrite Hht.
        match goal with
        | |- context [qLt 0 ?d && ?s] =>
            destruct (qLt 0 d) eqn:E; destruct s; cbn [andb]; try lra
        end.
        apply qLt_true_iff in E. lra. }
      lra.
    + match goal with
      | |- context [belowClamp n ?md ?yd ?h] =>
          pose proof (belowClamp_ge n md yd h) as Hc;
          assert (Hyd : 0 <= yd)
      end.
      { unfold belowSkylineYd. cbv zeta. rewrite Hht.
        match goal with
        | |- context [qLt 0 ?d && ?s] =>
            destruct (qLt 0 d) eqn:E; destruct s; cbn [andb]; try lra
        end.
        apply qLt_true_iff in E. lra. }
      lra.
Qed.

(** X7.  Tight mode ignores a pending user move: for a shown, autoplaced
    fingering of the chord layout type in tight mode, [layout] gives the same
    fingering and makes the same calls whatever the [offsetChanged] flag was,
    and the flag is cleared. *)
Theorem layout_tight_ignores_drag (f : Fingering) (sys : System) (n : Note)
    (oc : OffsetChange) :
  tabSuppressed f = false -> autoplace f = true -> note f = Some n ->
  layoutType f = CHORD -> layoutTight f n = true ->
  layout_run (mkWorld (withOffsetChanged f oc) sys) = layout_run (mkWorld f sys)
  /\ exists f',
       layout_run (mkWorld f sys) = Some (mkWorld f' sys, [CallTextBaseLayout])
       /\ offsetChanged f' = NONE /\ offset f' = offset f.
Proof.
  intros Htab Ha Hn Hty Htight.
  destruct (layout_run_tight_eq (mkWorld f sys) n Htab Ha Hn Hty Htight)
    as (f1 & E1 & Hp1 & Ha1 & Ho1 & Hb1 & Hx1 & Hy1).
  destruct (layout_run_tight_eq (mkWorld (withOffsetChanged f oc) sys) n
              Htab Ha Hn Hty Htight)
    as (f2 & E2 & Hp2 & Ha2 & Ho2 & Hb2 & Hx2 & Hy2).
  cbn [w_fingering w_system] in *.
  assert (E : f2 = f1).
  { apply fingering_ext.
    - rewrite Hp1, Hp2. reflexivity.
    - rewrite Ha1, Ha2. reflexivity.
    - rewrite Ho1, Ho2. reflexivity.
    - pose proof (centredX_eq f n) as Ec1.
      pose proof (centredX_eq (withOffsetChanged f oc) n) as Ec2.
      cbv zeta in Ec1, Ec2. rewrite Ec1 in Hx1. rewrite Ec2 in Hx2.
      destruct (ipos f1) as [x1 y1], (ipos f2) as [x2 y2]. cbn [px py] in *.
      rewrite Hx1, Hx2, Hy1, Hy2. reflexivity.
    - rewrite Hb1, Hb2. reflexivity. }
  split; [rewrite E1, E2, E; reflexivity|].
  exists f1. split; [exact E1|]. split; [exact Ho1|].
  destruct (props_inv f1 f Hp1) as (_ & _ & _ & Hoff & _). exact Hoff.
Qed.

(** X9.  The staff skyline is queried on one path only: a returning run
    contains a [minDistance] query exactly when the fingering is shown,
    autoplaced, on a note, of the chord layout type and not in tight mode. *)
Theorem layout_skyline_query_iff (w w' : World) (tr : list Call) :
  layout_run w = Some (w', tr) ->
  (existsb isSkylineCall tr = true <-> skylinePath (w_fingering w)).
Proof.
  intro Hrun. pose proof (layout_run_paths w w' tr Hrun) as Hp.
  cbv zeta in Hp. set (f := w_fingering w) in *. unfold skylinePath.
  destruct Hp as [(Htab & ->)|[(Htab & Hplain & ->)|(Htab & Ha & n & Hn & Hcase)]].
  - split; [discriminate|]. intros (H & _). congruence.
  - split.
    + destruct (negb (OffsetChange_eqb (offsetChanged f) NONE)); discriminate.
    + intros (_ & Ha & m & Hm & _). destruct Hplain; congruence.
  - destruct Hcase as [(Hty & ->)|[(Hty & Ht & ->)|(Hty & Ht & q & Hq & Hcase)]].
    + split.
      * rewrite dragCalls_eq.
        destruct (negb (OffsetChange_eqb (offsetChanged f) NONE)
                  && negb (layoutTight f n)); discriminate.
      * intros (_ & _ & m & _ & Hc & _). congruence.
    + split; [discriminate|].
      intros (_ & _ & m & Hm & _ & Hc). rewrite Hn in Hm. injection Hm as <-.
      congruence.
    + split.
      * intros _. split; [exact Htab|]. split; [exact Ha|]. exists n. tauto.
      * intros _.
        destruct Hcase as [(_ & ->)|(_ & r & _ & ->)]; cbn [existsb isSkylineCall];
          rewrite Hq; reflexivity.
Qed.

(** X10.  A pending user move is rebased on every path but two: a returning
    run calls [rebaseOffset] or [rebaseMinDistance] exactly when
    [offsetChanged] is not NONE, the fingering is not hidden on a tablature
    staff, and it is not an autoplaced fingering in tight mode. *)
Theorem layout_rebase_iff (w w' : World) (tr : list Call) :
  let f := w_fingering w in
  layout_run w = Some (w', tr) ->
  (existsb isRebaseCall tr = true
   <-> (offsetChanged f <> NONE /\ tabSuppressed f = false /\ ~ tightPath f)).
Proof.
  intros f Hrun. pose proof (layout_run_paths w w' tr Hrun) as Hp.
  cbv zeta in Hp. fold f in Hp. unfold tightPath.
  destruct Hp as [(Htab & ->)|[(Htab & Hplain & ->)|(Htab & Ha & n & Hn & Hcase)]].
  - split; [discriminate|]. intros (_ & H & _). congruence.
  - destruct (negb (OffsetChange_eqb (offsetChanged f) NONE)) eqn:E.
    + apply OffsetChange_eqb_NONE in E. split; [|reflexivity].
      intros _. split; [exact E|]. split; [exact Htab|].
      intros (Ha & m & Hm & _). destruct Hplain; congruence.
    + split; [discriminate|]. intros (Hoc & _).
      apply OffsetChange_eqb_NONE in Hoc. congruence.
  - assert (Hdrag : existsb isRebaseCall (dragCalls f n) = true
                    <-> (offsetChanged f <> NONE /\ layoutTight f n = false)).
    { rewrite dragCalls_eq.
      destruct (negb (OffsetChange_eqb (offsetChanged f) NONE)) eqn:E;
        destruct (layoutTight f n); cbn; split; try discriminate;
        try (intros [_ H]; discriminate).
      - intros _. apply OffsetChange_eqb_NONE in E. tauto.
      - intros [Hoc _]. apply OffsetChange_eqb_NONE in Hoc. congruence.
      - intros [Hoc _]. apply OffsetChange_eqb_NONE in Hoc. congruence. }
    assert (Htp : forall b, layoutTight f n = b ->
              (~ (autoplace f = true
                  /\ exists m, note f = Some m /\ layoutTight f m = true))
              <-> b = false).
    { intros b Hb. split.
      - intro H. destruct b; [|reflexivity]. exfalso. apply H.
        split; [exact Ha|]. exists n. tauto.
      - intros -> (_ & m & Hm & Hc). rewrite Hn in Hm. injection Hm as <-.
        congruence. }
    destruct Hcase as [(Hty & ->)|[(Hty & Ht & ->)|(Hty & Ht & q & Hq & Hcase)]].
    + cbn [existsb isRebaseCall orb]. rewrite Hdrag.
      rewrite (Htp _ eq_refl). tauto.
    + split; [discriminate|]. intros (_ & _ & H).
      apply (Htp _ Ht) in H. discriminate.
    + destruct Hcase as [(Hnone & ->)|(Hoc & r & Hr & ->)].
      * destruct q; try discriminate. split; [discriminate|].
        intros (H & _). congruence.
      * split; [|reflexivity]. intros _. split; [exact Hoc|].
        split; [exact Htab|]. apply (Htp _ Ht). reflexivity.
Qed.

(** X11.  Without a pending user move [layout] returns and leaves the
    user's side of the fingering alone: text style, content, placement, user
    offset, minimum distance and its styled flag, note and staff are what
    they were. *)
Theorem layout_keeps_user_properties (w : World) :
  offsetChanged (w_fingering w) = NONE ->
  exists w' tr,
    layout_run w = Some (w', tr)
    /\ props (w_fingering w') = props (w_fingering w)
    /\ existsb isRebaseCall tr = false.
Proof.
  intro Hnone.
  destruct (layout_run_returns w (or_introl Hnone)) as (w' & tr & Hrun).
  exists w', tr. split; [exact Hrun|].
  split; [exact (layout_run_props w w' tr Hnone Hrun)|].
  pose proof (layout_run_paths w w' tr Hrun) as Hp. cbv zeta in Hp.
  rewrite Hnone in Hp. cbn [OffsetChange_eqb negb] in Hp.
  destruct Hp as [(_ & ->)|[(_ & _ & ->)|(_ & _ & n & _ & Hcase)]];
    try reflexivity.
  destruct Hcase as [(_ & ->)|[(_ & _ & ->)|(_ & _ & q & Hq & Hcase)]].
  - rewrite (dragCalls_none _ n Hnone). reflexivity.
  - reflexivity.
  - destruct Hcase as [(_ & ->)|(Hoc & _)]; [|contradiction].
    destruct q; try discriminate. reflexivity.
Qed.

(** X12.  Placed above, the non-tight chord path reads the north profile of
    the staff skyline only, and placed below the south profile only: two
    systems that agree on that profile of the chord's staff give the same
    fingering and the same calls. *)
Theorem layout_reads_one_profile (f : Fingering) (sys1 sys2 : System) (n : Note) :
  let i := ch_vStaffIdx (n_chord n) in
  let profile (sys : System) :=
    if placeAbove f then north (skyline (sys_staff sys i))
    else south (skyline (sys_staff sys i)) in
  let result (sys : System) :=
    option_map (fun r => (w_fingering (fst r), snd r))
      (layout_run (mkWorld f sys)) in
  tabSuppressed f = false -> autoplace f = true -> note f = Some n ->
  layoutType f = CHORD -> layoutTight f n = false ->
  profile sys1 = profile sys2 -> result sys1 = result sys2.
Proof.
  intros i profile result Htab Ha Hn Hty Htight Hprof. unfold result.
  rewrite (layout_run_chord (mkWorld f sys1) n Htab Ha Hn Hty Htight).
  rewrite (layout_run_chord (mkWorld f sys2) n Htab Ha Hn Hty Htight).
  cbn [w_fingering w_system]. fold i. unfold profile in Hprof.
  destruct (placeAbove f).
  - unfold layoutAbove, aboveD. cbv zeta. rewrite Hprof.
    match goal with
    | |- context [match ?X with _ => _ end] => destruct X as [[h tr]|]
    end; reflexivity.
  - unfold layoutBelow, belowD. cbv zeta. rewrite Hprof.
    match goal with
    | |- context [match ?X with _ => _ end] => destruct X as [[h tr]|]
    end; reflexivity.
Qed.

End MoreLayoutProperties.

(** X21.  The default placement in one table: [propertyDefault(PLACEMENT)]
    is Below exactly when the fingering has a note and either several voices
    meet at the chord with its stem down, or a single voice is on the last
    staff of a part of several staves; it is Above in every other case.
    [propertyDefault(TEXT_STYLE)] is FINGERING whatever the fingering's own
    style, and neither consults the base class. *)
Theorem propertyDefault_table (B : Type) (base : Fingering -> Pid -> B)
    (f : Fingering) :
  let below :=
    exists n,
      note f = Some n
      /\ ((placementVoices (n_chord n) = true /\ ch_up (n_chord n) = false)
          \/ (placementVoices (n_chord n) = false
              /\ lastStaffOfSeveral (n_chord n))) in
  (propertyDefault base f PLACEMENT = PlacementValue BELOW <-> below)
  /\ (propertyDefault base f PLACEMENT = PlacementValue ABOVE <-> ~ below)
  /\ propertyDefault base f TEXT_STYLE = TextStyleValue FINGERING.
Proof.
  cbv zeta. cbn [propertyDefault].
  assert (Hdec :
    (calculatePlacement f = BELOW
     <-> exists n,
          note f = Some n
          /\ ((placementVoices (n_chord n) = true /\ ch_up (n_chord n) = false)
              \/ (placementVoices (n_chord n) = false
                  /\ lastStaffOfSeveral (n_chord n))))).
  { destruct (note f) as [n|] eqn:Hn.
    - rewrite (calculatePlacement_note f n Hn).
      assert (Hex : forall P : Note -> Prop,
                (exists m, Some n = Some m /\ P m) <-> P n).
      { intro P. split.
        - intros (m & Hm & H). injection Hm as <-. exact H.
        - intro H. exists n. split; [reflexivity | exact H]. }
      rewrite (Hex (fun m =>
                 (placementVoices (n_chord m) = true /\ ch_up (n_chord m) = false)
                 \/ (placementVoices (n_chord m) = false
                     /\ lastStaffOfSeveral (n_chord m)))).
      unfold lastStaffOfSeveral. cbv zeta.
      set (k := nstaves (st_part (ch_staff (n_chord n)))).
      set (r := st_rstaff (ch_staff (n_chord n))).
      destruct (placementVoices (n_chord n)); destruct (ch_up (n_chord n));
        cbn [negb];
        try (destruct (Z.ltb_spec 1 k) as [E1|E1];
             destruct (Z.eqb_spec r (k - 1)) as [E2|E2]; cbn [andb]);
        split; intro H;
        solve [ discriminate | reflexivity | tauto
              | destruct H as [[H1 H2]|[H1 [H2 H3]]];
                solve [discriminate | lia | contradiction] ].
    - unfold calculatePlacement. rewrite Hn. split; [discriminate|].
      intros (m & Hm & _). discriminate. }
  split; [|split; [|reflexivity]].
  - rewrite <- Hdec. split; intro H; [injection H as H; exact H | rewrite H; reflexivity].
  - rewrite <- Hdec. split.
    + intros H. injection H as H. rewrite H. discriminate.
    + intro H. destruct (calculatePlacement f); [reflexivity|].
      exfalso. apply H. reflexivity.
Qed.

(** * Properties of string.h *)

Section CharProperties.

Import Char.
Local Open Scope Z_scope.

Lemma shiftr10 (u : Z) : Z.shiftr u 10 = u / 1024.
Proof. rewrite Z.shiftr_div_pow2 by lia. reflexivity. Qed.

(** Splits [u] into [1024 * q + r] and removes the two wrap-arounds once
    they are known not to happen. *)
Ltac split_code_point u q r :=
  unfold highSurrogate, lowSurrogate, to_char16, to_uint;
  change (2 ^ 32) with 4294967296; change (2 ^ 16) with 65536;
  rewrite ?shiftr10;
  pose proof (Z.div_mod u 1024 ltac:(lia));
  pose proof (Z.mod_pos_bound u 1024 ltac:(lia));
  set (q := u / 1024) in *; set (r := u mod 1024) in *;
  clearbody q r.

Ltac no_wrap :=
  repeat match goal with
         | |- context [?a mod ?b] => rewrite (Z.mod_small a b) by lia
         end.

(** X13.  For a code point beyond the basic plane ([0x10000..0x10FFFF])
    [highSurrogate] is a high surrogate and [lowSurrogate] a low surrogate. *)
Theorem surrogates_in_range (u : Z) :
  supplementary u ->
  isHighSurrogate (highSurrogate u) /\ isLowSurrogate (lowSurrogate u).
Proof.
  unfold supplementary, isHighSurrogate, isLowSurrogate. intros [Hlo Hhi].
  split_code_point u q r.
  no_wrap. lia.
Qed.

(** X14.  The pair is the UTF-16 encoding of the code point: decoding it by
    [0x10000 + (high - 0xD800) * 0x400 + (low - 0xDC00)] gives the code point
    back, so two code points with the same pair are equal. *)
Theorem surrogates_decode (u : Z) :
  supplementary u ->
  0x10000 + (highSurrogate u - 0xD800) * 0x400 + (lowSurrogate u - 0xDC00) = u.
Proof.
  unfold supplementary. intros [Hlo Hhi].
  split_code_point u q r.
  no_wrap. lia.
Qed.

(** X15.  [lowSurrogate] is a low surrogate for every [uint], and
    [highSurrogate] is a high surrogate for a code point up to [0x10FFFF]
    only when the code point is beyond the basic plane: for a code point of
    the basic plane it is a code unit in [0xD7C0..0xD7FF]. *)
Theorem surrogates_outside_range (u : Z) :
  0 <= u < 2 ^ 32 ->
  isLowSurrogate (lowSurrogate u)
  /\ (u <= 0x10FFFF -> (isHighSurrogate (highSurrogate u) <-> 0x10000 <= u))
  /\ (u < 0x10000 -> 0xD7C0 <= highSurrogate u <= 0xD7FF).
Proof.
  unfold isHighSurrogate, isLowSurrogate.
  change (2 ^ 32) with 4294967296. intros [Hlo Hhi].
  split_code_point u q r.
  split; [no_wrap; lia|].
  split; intro Hu; no_wrap; [split; intro; lia | lia].
Qed.

End CharProperties.

Section AsciiStringViewProperties.

Import AsciiStringView.
Local Open Scope nat_scope.

(** *** The order of bytes *)

Lemma ascii_compare_refl (x : Ascii.ascii) : Ascii.compare x x = Eq.
Proof. unfold Ascii.compare. apply N.compare_refl. Qed.

Lemma ascii_compare_lt_trans (x y z : Ascii.ascii) :
  Ascii.compare x y = Lt -> Ascii.compare y z = Lt -> Ascii.compare x z = Lt.
Proof.
  unfold Ascii.compare. rewrite !N.compare_lt_iff. apply N.lt_trans.
Qed.

Lemma compareBytes_eq_iff (a b : list Ascii.ascii) :
  List.length a = List.length b -> (compareBytes a b = Eq <-> a = b).
Proof.
  revert b. induction a as [|x a IH]; intros [|y b] Hlen; try discriminate.
  - split; reflexivity.
  - injection Hlen as Hlen. cbn [compareBytes].
    destruct (Ascii.compare x y) eqn:E.
    + apply Ascii.compare_eq_iff in E. subst y.
      rewrite (IH b Hlen). split; intro H; [subst; reflexivity|].
      injection H as H. exact H.
    + split; [discriminate|]. intro H. injection H as -> _.
      rewrite ascii_compare_refl in E. discriminate.
    + split; [discriminate|]. intro H. injection H as -> _.
      rewrite ascii_compare_refl in E. discriminate.
Qed.

Lemma compareBytes_antisym (a b : list Ascii.ascii) :
  compareBytes b a = CompOpp (compareBytes a b).
Proof.
  revert b. induction a as [|x a IH]; intros [|y b]; try reflexivity.
  cbn [compareBytes]. rewrite (Ascii.compare_antisym x y).
  destruct (Ascii.compare y x); cbn [CompOpp]; [apply IH | reflexivity | reflexivity].
Qed.

Lemma compareBytes_lt_trans (a b c : list Ascii.ascii) :
  compareBytes a b = Lt -> compareBytes b c = Lt -> compareBytes a c = Lt.
Proof.
  revert b c. induction a as [|x a IH]; intros [|y b] [|z c]; try discriminate.
  cbn [compareBytes].
  destruct (Ascii.compare x y) eqn:Exy; try discriminate;
    destruct (Ascii.compare y z) eqn:Eyz; try discriminate; intros H1 H2.
  - apply Ascii.compare_eq_iff in Exy, Eyz. subst. rewrite ascii_compare_refl.
    exact (IH _ _ H1 H2).
  - apply Ascii.compare_eq_iff in Exy. subst. rewrite Eyz. reflexivity.
  - apply Ascii.compare_eq_iff in Eyz. subst. rewrite Exy. reflexivity.
  - rewrite (ascii_compare_lt_trans x y z Exy Eyz). reflexivity.
Qed.

(** *** Valid views *)

Lemma chars_length (a : t) : valid a -> List.length (chars a) = m_size a.
Proof.
  unfold valid, chars. destruct (m_data a) as [buf|]; intro H.
  - rewrite length_firstn. lia.
  - rewrite H. reflexivity.
Qed.

Lemma memcmp_valid (a b : t) :
  valid a -> valid b -> m_size a = m_size b ->
  memcmp (m_data a) (m_data b) (m_size a)
  = Some (compareBytes (chars a) (chars b)).
Proof.
  unfold valid, chars, memcmp. intros Ha Hb Hs. rewrite <- Hs.
  destruct (m_size a) as [|n] eqn:En; [reflexivity|].
  cbn [Nat.eqb].
  destruct (m_data a) as [u|]; [|discriminate].
  destruct (m_data b) as [v|]; [|lia].
  assert (E1 : (S n <=? List.length u) = true) by (apply Nat.leb_le; exact Ha).
  assert (E2 : (S n <=? List.length v) = true) by (apply Nat.leb_le; lia).
  rewrite E1, E2. reflexivity.
Qed.

(** X16.  On valid views [==] compares contents: it returns, and it is true
    exactly when the two views stand for the same chars, wherever they point
    and whatever follows the chars in memory. *)
Theorem view_eq_iff (a b : t) :
  valid a -> valid b ->
  exists r, operator_eq a b = Some r /\ (r = true <-> chars a = chars b).
Proof.
  intros Ha Hb. unfold operator_eq.
  destruct (m_size a =? m_size b) eqn:E.
  - apply Nat.eqb_eq in E. rewrite (memcmp_valid a b Ha Hb E).
    eexists. split; [reflexivity|]. cbn [option_map].
    rewrite <- (compareBytes_eq_iff (chars a) (chars b))
      by (rewrite !chars_length by assumption; exact E).
    destruct (compareBytes (chars a) (chars b)); cbn [isEq];
      split; congruence.
  - apply Nat.eqb_neq in E. exists false. split; [reflexivity|].
    split; [discriminate|]. intro H. exfalso. apply E.
    rewrite <- (chars_length a Ha), <- (chars_length b Hb), H. reflexivity.
Qed.

Lemma operator_lt_valid (a b : t) :
  valid a -> valid b ->
  operator_lt a b
  = Some (if m_size a =? m_size b then isLt (compareBytes (chars a) (chars b))
          else m_size a <? m_size b).
Proof.
  intros Ha Hb. unfold operator_lt.
  destruct (m_size a =? m_size b) eqn:E; [|reflexivity].
  apply Nat.eqb_eq in E. cbn [negb]. rewrite (memcmp_valid a b Ha Hb E).
  reflexivity.
Qed.

Lemma operator_eq_valid (a b : t) :
  valid a -> valid b ->
  operator_eq a b
  = Some (if m_size a =? m_size b then isEq (compareBytes (chars a) (chars b))
          else false).
Proof.
  intros Ha Hb. unfold operator_eq.
  destruct (m_size a =? m_size b) eqn:E; [|reflexivity].
  apply Nat.eqb_eq in E. rewrite (memcmp_valid a b Ha Hb E). reflexivity.
Qed.

(** X17.  On valid views exactly one of [a < b], [a == b] and [b < a]
    holds. *)
Theorem view_lt_trichotomy (a b : t) :
  valid a -> valid b ->
  exists l e g,
    operator_lt a b = Some l /\ operator_eq a b = Some e
    /\ operator_lt b a = Some g
    /\ ((l = true /\ e = false /\ g = false)
        \/ (l = false /\ e = true /\ g = false)
        \/ (l = false /\ e = false /\ g = true)).
Proof.
  intros Ha Hb.
  rewrite (operator_lt_valid a b Ha Hb), (operator_lt_valid b a Hb Ha),
    (operator_eq_valid a b Ha Hb).
  eexists. eexists. eexists. repeat (split; [reflexivity|]).
  rewrite (Nat.eqb_sym (m_size b) (m_size a)).
  destruct (m_size a =? m_size b) eqn:E.
  - rewrite (compareBytes_antisym (chars a) (chars b)).
    destruct (compareBytes (chars a) (chars b)); cbn; tauto.
  - apply Nat.eqb_neq in E.
    destruct (Nat.ltb_spec (m_size a) (m_size b)) as [H|H];
      destruct (Nat.ltb_spec (m_size b) (m_size a)) as [H'|H']; try lia; tauto.
Qed.

(** X18.  On valid views [<] is transitive. *)
Theorem view_lt_trans (a b c : t) :
  valid a -> valid b -> valid c ->
  operator_lt a b = Some true -> operator_lt b c = Some true ->
  operator_lt a c = Some true.
Proof.
  intros Ha Hb Hc.
  rewrite (operator_lt_valid a b Ha Hb), (operator_lt_valid b c Hb Hc),
    (operator_lt_valid a c Ha Hc).
  intros H1 H2. injection H1 as H1. injection H2 as H2. f_equal.
  destruct (Nat.eqb_spec (m_size a) (m_size b)) as [E1|E1];
    destruct (Nat.eqb_spec (m_size b) (m_size c)) as [E2|E2];
    destruct (Nat.eqb_spec (m_size a) (m_size c)) as [E3|E3];
    try apply Nat.ltb_lt in H1; try apply Nat.ltb_lt in H2;
    try apply Nat.ltb_lt; try lia.
  destruct (compareBytes (chars a) (chars b)) eqn:C1; try discriminate.
  destruct (compareBytes (chars b) (chars c)) eqn:C2; try discriminate.
  rewrite (compareBytes_lt_trans _ _ _ C1 C2). reflexivity.
Qed.

(** *** C strings *)

Lemma strlen_spec (buf : list Ascii.ascii) (n : nat) :
  strlen buf = Some n ->
  n < List.length buf /\ ~ In Ascii.zero (firstn n buf)
  /\ exists rest, buf = firstn n buf ++ Ascii.zero :: rest.
Proof.
  revert n. induction buf as [|c buf IH]; intros n; [discriminate|].
  cbn [strlen]. unfold isNul. destruct (Ascii.eqb c Ascii.zero) eqn:E.
  - intro H. injection H as <-. apply Ascii.eqb_eq in E. subst c.
    cbn. split; [lia|]. split; [tauto|]. exists buf. reflexivity.
  - destruct (strlen buf) as [m|]; [|discriminate].
    intro H. injection H as <-.
    destruct (IH m eq_refl) as (Hlen & Hnul & rest & Hrest).
    cbn [List.length firstn]. split; [lia|]. split.
    + intros [H|H]; [|exact (Hnul H)].
      subst c. rewrite Ascii.eqb_refl in E. discriminate.
    + exists rest. cbn [app]. f_equal. exact Hrest.
Qed.

(** X19.  Comparing a view with a C string is comparing it with the view of
    that C string: the two overloads of [==] agree, null pointer included. *)
Theorem view_eq_cstr_agrees (s : cstring) (v a : t) :
  fromCString s = Some v -> operator_eq_cstr a s = operator_eq a v.
Proof.
  unfold fromCString, operator_eq_cstr, operator_eq.
  destruct s as [buf|].
  - destruct (strlen buf) as [n|]; [|discriminate].
    intro H. injection H as <-. reflexivity.
  - intro H. injection H as <-. cbn [m_size m_data].
    destruct (m_size a) as [|n]; reflexivity.
Qed.

Lemma memcmp_self (v : t) :
  valid v -> memcmp (m_data v) (m_data v) (m_size v) = Some Eq.
Proof.
  intro Hv. rewrite (memcmp_valid v v Hv Hv eq_refl). f_equal.
  apply compareBytes_eq_iff; reflexivity.
Qed.

(** X20.  The view of a NUL-terminated C string is valid, holds the chars
    before the first NUL and none after, and compares equal to the C string
    it was made from; the view of the null pointer is the empty view. *)
Theorem view_fromCString (s : cstring) (v : t) :
  fromCString s = Some v ->
  valid v
  /\ operator_eq_cstr v s = Some true
  /\ ~ In Ascii.zero (chars v)
  /\ (forall buf, s = Some buf -> exists rest, buf = chars v ++ Ascii.zero :: rest)
  /\ (s = None -> v = empty_view).
Proof.
  intro H.
  assert (Hv : valid v /\ ~ In Ascii.zero (chars v)
               /\ (forall buf, s = Some buf ->
                   exists rest, buf = chars v ++ Ascii.zero :: rest)
               /\ (s = None -> v = empty_view)).
  { unfold fromCString in H. destruct s as [buf|].
    - destruct (strlen buf) as [n|] eqn:E; [|discriminate].
      injection H as <-. destruct (strlen_spec buf n E) as (Hlen & Hnul & Hrest).
      unfold valid, chars. cbn [m_size m_data].
      split; [lia|]. split; [exact Hnul|].
      split; [|discriminate]. intros b Hb. injection Hb as <-. exact Hrest.
    - injection H as <-. unfold valid, chars. cbn.
      split; [reflexivity|]. split; [tauto|].
      split; [discriminate | reflexivity]. }
  destruct Hv as (Hvalid & Hnul & Hbuf & Hnull).
  split; [exact Hvalid|]. split; [|tauto].
  pose proof (memcmp_self v Hvalid) as Hm.
  unfold fromCString in H. unfold operator_eq_cstr. destruct s as [buf|].
  - destruct (strlen buf) as [n|]; [|discriminate].
    injection H as <-. cbn [m_size m_data] in *.
    rewrite Nat.eqb_refl, Hm. reflexivity.
  - injection H as <-. reflexivity.
Qed.

End AsciiStringViewProperties.

(** ** The further properties on sample inputs *)

Section MoreExamples.

#[local] Existing Instance Sample.collaborators.

Import SampleMore.

(** A dragged fingering with autoplace off, under the obstacle. *)
Lemma layout_autoplace_off_witness :
  exists f',
    layout_run manualWorld
    = Some (mkWorld f' (w_system manualWorld),
            [CallTextBaseLayout; CallRebaseOffset false])
    /\ ipos f' = mkPointF 0 0 /\ autoplace f' = false.
Proof.
  destruct (layout_autoplace_off manualWorld eq_refl eq_refl)
    as (f' & Hrun & Hi & _ & Ha).
  exists f'. repeat split; assumption.
Defined.

(** A fingering of another text style on a note. *)
Lemma layout_other_style_witness :
  exists f',
    layout_run otherStyleWorld
    = Some (mkWorld f' (w_system otherStyleWorld), [CallTextBaseLayout])
    /\ ipos f' = mkPointF 0 0.
Proof.
  destruct (layout_other_style otherStyleWorld (Sample.soloNote Sample.staff1)
              eq_refl eq_refl eq_refl eq_refl ltac:(discriminate))
    as (f' & Hrun & _ & Hi & _).
  exists f'. split; assumption.
Defined.

(** The dragged fingering placed below: centred at [0 + 6 * 0.5]. *)
Lemma layout_chord_centred_witness :
  exists w' tr,
    layout_run Sample.belowDraggedWorld = Some (w', tr)
    /\ px (ipos (w_fingering w')) = 0 + 6 * 0.5.
Proof.
  destruct (layout_run Sample.belowDraggedWorld) as [[w' tr]|] eqn:E;
    [|vm_compute in E; discriminate E].
  exists w', tr. split; [reflexivity|].
  exact (proj1 (layout_chord_centred Sample.belowDraggedWorld w' tr
                  (Sample.soloNote Sample.staff1)
                  eq_refl eq_refl eq_refl eq_refl eq_refl E)).
Defined.

(** On a system with empty skylines the fingering is moved to the
    structural edge only. *)
Lemma layout_no_collision_witness :
  let n := Sample.soloNote Sample.staff1 in
  let f := w_fingering Sample.quietWorld in
  let h := atChordBranch f n in
  let md := minDistance f * spatium f in
  exists f' tr,
    layout_run Sample.quietWorld
    = Some (mkWorld f' (w_system Sample.quietWorld), tr)
    /\ if placeAbove f
       then py (ipos f') == - Qmax 0 (shortfallAbove n md 0 h)
            /\ (shortfallAbove n md 0 h <= 0 -> py (ipos f') == 0)
       else py (ipos f') == Qmax 0 (shortfallBelow n md 0 h)
            /\ (shortfallBelow n md 0 h <= 0 -> py (ipos f') == 0).
Proof.
  intros n f h md.
  apply (layout_no_collision Sample.quietWorld n); try reflexivity.
  left. vm_compute. discriminate.
Defined.

(** The fingering under the obstacle ends above [y = 0]. *)
Lemma layout_direction_witness :
  exists f' tr,
    layout_run Sample.aboveWorld = Some (mkWorld f' (w_system Sample.aboveWorld), tr)
    /\ py (ipos f') <= 0.
Proof.
  exact (layout_direction Sample.aboveWorld (Sample.soloNote Sample.staff1)
           eq_refl eq_refl eq_refl eq_refl eq_refl
           ltac:(vm_compute; discriminate) ltac:(vm_compute; discriminate)).
Defined.

(** The tight fingering, dragged or not. *)
Lemma layout_tight_ignores_drag_witness :
  layout_run (mkWorld (withOffsetChanged Sample.voiceFingering ABSOLUTE_OFFSET)
                (Sample.aSystem Sample.busySkyline))
  = layout_run (mkWorld Sample.voiceFingering (Sample.aSystem Sample.busySkyline)).
Proof.
  exact (proj1 (layout_tight_ignores_drag Sample.voiceFingering
                  (Sample.aSystem Sample.busySkyline)
                  (Sample.voiceNote Sample.staff1) ABSOLUTE_OFFSET
                  eq_refl eq_refl eq_refl eq_refl eq_refl)).
Defined.

(** The dragged fingering placed below queries the skyline. *)
Lemma layout_skyline_query_iff_witness :
  exists w' tr,
    layout_run Sample.belowDraggedWorld = Some (w', tr)
    /\ (existsb isSkylineCall tr = true
        <-> skylinePath (w_fingering Sample.belowDraggedWorld)).
Proof.
  destruct (layout_run Sample.belowDraggedWorld) as [[w' tr]|] eqn:E;
    [|vm_compute in E; discriminate E].
  exists w', tr. split; [reflexivity|].
  exact (layout_skyline_query_iff Sample.belowDraggedWorld w' tr E).
Defined.

(** The dragged fingering placed below is rebased. *)
Lemma layout_rebase_iff_witness :
  let f := w_fingering Sample.belowDraggedWorld in
  exists w' tr,
    layout_run Sample.belowDraggedWorld = Some (w', tr)
    /\ (existsb isRebaseCall tr = true
        <-> (offsetChanged f <> NONE /\ tabSuppressed f = false /\ ~ tightPath f)).
Proof.
  intro f.
  destruct (layout_run Sample.belowDraggedWorld) as [[w' tr]|] eqn:E;
    [|vm_compute in E; discriminate E].
  exists w', tr. split; [reflexivity|].
  exact (layout_rebase_iff Sample.belowDraggedWorld w' tr E).
Defined.

(** The fingering under the obstacle keeps its user properties. *)
Lemma layout_keeps_user_properties_witness :
  exists w' tr,
    layout_run Sample.aboveWorld = Some (w', tr)
    /\ props (w_fingering w') = props (w_fingering Sample.aboveWorld)
    /\ existsb isRebaseCall tr = false.
Proof. exact (layout_keeps_user_properties Sample.aboveWorld eq_refl). Defined.

(** Placed above, another south profile changes nothing. *)
Lemma layout_reads_one_profile_witness :
  let f := w_fingering Sample.aboveWorld in
  option_map (fun r => (w_fingering (fst r), snd r))
    (layout_run (mkWorld f (Sample.aSystem Sample.busySkyline)))
  = option_map (fun r => (w_fingering (fst r), snd r))
      (layout_run (mkWorld f (Sample.aSystem otherSouthSkyline))).
Proof.
  exact (layout_reads_one_profile (w_fingering Sample.aboveWorld)
           (Sample.aSystem Sample.busySkyline) (Sample.aSystem otherSouthSkyline)
           (Sample.soloNote Sample.staff1)
           eq_refl eq_refl eq_refl eq_refl eq_refl eq_refl).
Defined.

(** U+1F600 is written D83D DE00. *)
Lemma surrogates_in_range_witness :
  Char.isHighSurrogate (Char.highSurrogate 0x1F600)
  /\ Char.isLowSurrogate (Char.lowSurrogate 0x1F600).
Proof.
  apply (surrogates_in_range 0x1F600). unfold Char.supplementary. lia.
Defined.

(** Decoding D83D DE00 gives U+1F600 back. *)
Lemma surrogates_decode_witness :
  (0x10000 + (Char.highSurrogate 0x1F600 - 0xD800) * 0x400
   + (Char.lowSurrogate 0x1F600 - 0xDC00) = 0x1F600)%Z.
Proof.
  apply (surrogates_decode 0x1F600). unfold Char.supplementary. lia.
Defined.

(** The letter A has no high surrogate. *)
Lemma surrogates_outside_range_witness :
  (0xD7C0 <= Char.highSurrogate 0x41 <= 0xD7FF)%Z.
Proof.
  refine (proj2 (proj2 (surrogates_outside_range 0x41 _)) _); lia.
Defined.

(** Two views of "ab" in different buffers are equal. *)
Lemma view_eq_iff_witness :
  exists r,
    AsciiStringView.operator_eq viewAb viewAb' = Some r
    /\ (r = true <-> AsciiStringView.chars viewAb = AsciiStringView.chars viewAb').
Proof.
  apply (view_eq_iff viewAb viewAb'); unfold AsciiStringView.valid; simpl; lia.
Defined.

(** "abc" and "abd". *)
Lemma view_lt_trichotomy_witness :
  exists l e g,
    AsciiStringView.operator_lt viewAbc viewAbd = Some l
    /\ AsciiStringView.operator_eq viewAbc viewAbd = Some e
    /\ AsciiStringView.operator_lt viewAbd viewAbc = Some g
    /\ ((l = true /\ e = false /\ g = false)
        \/ (l = false /\ e = true /\ g = false)
        \/ (l = false /\ e = false /\ g = true)).
Proof.
  apply (view_lt_trichotomy viewAbc viewAbd);
    unfold AsciiStringView.valid; simpl; lia.
Defined.

(** "z" is less than "ab", which is less than "abc": the shorter comes
    first. *)
Lemma view_lt_trans_witness :
  AsciiStringView.operator_lt viewZ viewAbc = Some true.
Proof.
  apply (view_lt_trans viewZ viewAb viewAbc);
    solve [ unfold AsciiStringView.valid; simpl; lia | reflexivity ].
Defined.

(** The view "ab" against the C string "ab". *)
Lemma view_eq_cstr_agrees_witness :
  exists v,
    AsciiStringView.fromCString (cstr "ab") = Some v
    /\ AsciiStringView.operator_eq_cstr viewAb (cstr "ab")
       = AsciiStringView.operator_eq viewAb v.
Proof.
  eexists. split; [reflexivity|].
  apply (view_eq_cstr_agrees (cstr "ab")). reflexivity.
Defined.

(** The view of the C string "abc". *)
Lemma view_fromCString_witness :
  exists v,
    AsciiStringView.fromCString (cstr "abc") = Some v
    /\ AsciiStringView.valid v
    /\ AsciiStringView.operator_eq_cstr v (cstr "abc") = Some true.
Proof.
  eexists. split; [reflexivity|].
  refine (let H := view_fromCString (cstr "abc") _ eq_refl in
          conj (proj1 H) (proj1 (proj2 H))).
Defined.

End MoreExamples.
